(** * aikido-backup: change detection, chunked journal and replay

    A shallow embedding of [backup.go], [restore.go] and [watch.go].
    The filesystem is an explicit state (a finite map from paths to
    regular files) threaded through every operation; the operating
    system's refusals are a record of fault predicates; the [encoding/gob]
    codec is an interface with one concrete wire format as its instance. *)

From Stdlib Require Import ZArith NArith Lia Bool.
From Stdlib.Strings Require Import Ascii String Byte.
From stdpp Require Import base option list gmap strings fin_maps sorting.

Local Open Scope Z_scope.
Local Open Scope string_scope.

(** ** Data model ([backup.go]) *)

(** [type FileEntry struct].  [Mode] is an [os.FileMode] ([uint32]),
    [Size] an [int64], [Content] a byte slice.  [ModTime] is a
    [time.Time], held as the number of nanoseconds since the zero
    [time.Time], so that the zero value of the Go type is [0]. *)
Record FileEntry := mkFileEntry {
  Path : string;
  Mode : N;
  ModTime : Z;
  Size : Z;
  Content : list byte;
  Deleted : bool
}.

(** [type Chunk struct { Entries []*FileEntry }]. *)
Record Chunk := mkChunk { Entries : list FileEntry }.

(** [const chunkSize = 5 * 1024 * 1024]. *)
Definition chunkSize : Z := 5 * 1024 * 1024.

(** The errors the program returns.  [ErrIO] carries the path the
    operating system refused; [ErrNoChunks] is the
    [fmt.Errorf("no backup chunks found in %s", backupPath)] of restore;
    [ErrDecode] is a gob decoding failure; [ErrBadPattern] is the only
    error [filepath.Glob] reports. *)
Inductive error :=
| ErrIO (path : string)
| ErrBadPattern
| ErrNoChunks (backupPath : string)
| ErrDecode.

(** ** Restore state and the fold of [restore.go]

    [fileData := make(map[string]*FileEntry)] and
    [deletedFiles := make(map[string]bool)]. *)
Record RestoreState := mkRestoreState {
  fileData : gmap string FileEntry;
  deletedFiles : gmap string bool
}.

Definition emptyState : RestoreState :=
  {| fileData := ∅; deletedFiles := ∅ |}.

(** The body of the inner loop of [restore]:
<<
    if entry.Deleted {
        deletedFiles[entry.Path] = true
        delete(fileData, entry.Path)
    } else {
        delete(deletedFiles, entry.Path)
        fileData[entry.Path] = entry
    }
>> *)
Definition applyEntry (st : RestoreState) (entry : FileEntry) : RestoreState :=
  if Deleted entry then
    {| fileData := delete (Path entry) (fileData st);
       deletedFiles := <[Path entry := true]> (deletedFiles st) |}
  else
    {| fileData := <[Path entry := entry]> (fileData st);
       deletedFiles := delete (Path entry) (deletedFiles st) |}.

(** [for _, entry := range chunk.Entries { ... }]. *)
Definition applyChunk (st : RestoreState) (chunk : Chunk) : RestoreState :=
  fold_left applyEntry (Entries chunk) st.

(** ** Results and the filesystem

    A Go function returning [(T, error)] returns a [result T]. *)
Inductive result (A : Type) :=
| Ok (a : A)
| Err (e : error).
Arguments Ok {A} a.
Arguments Err {A} e.

(** A regular file: its bytes, permission bits and modification time.
    The filesystem is the finite map of its regular files, by path: a
    [gmap string File]. *)
Record File := mkFile { fbytes : list byte; fperm : N; fmtime : Z }.

(** What the program takes from its environment: the clock, the SHA-256
    digest (printed in hexadecimal) and the operating system's refusals,
    one predicate per system call the program makes. *)
Record Env := mkEnv {
  now : Z;
  sha256Hex : list byte -> string;
  mkdirAll_fails : string -> bool;
  create_fails : string -> bool;
  open_fails : string -> bool;
  writeFile_fails : string -> bool;
  chtimes_fails : string -> bool;
  bad_pattern : string -> bool
}.

(** Seconds between the zero [time.Time] and the Unix epoch, and
    [Time.Unix()]. *)
Definition unixToInternal : Z := 62135596800.
Definition Unix (t : Z) : Z := t / 1000000000 - unixToInternal.

(** Stateful, fallible code: a function of the disk that returns the new
    disk together with its result. *)
Definition M (A : Type) : Type := gmap string File -> gmap string File * result A.

Definition ret {A} (a : A) : M A := fun disk => (disk, Ok a).
Definition fail {A} (e : error) : M A := fun disk => (disk, Err e).
Definition bind {A B} (m : M A) (k : A -> M B) : M B :=
  fun disk => match m disk with
              | (disk', Ok a) => k a disk'
              | (disk', Err e) => (disk', Err e)
              end.

(** An operation that only reads the disk. *)
Definition reading {A} (f : gmap string File -> result A) : M A :=
  fun disk => (disk, f disk).

#[export] Instance M_ret : MRet M := @ret.
#[export] Instance M_bind : MBind M := fun A B k m => bind m k.

(** ** Go's [int]: 64-bit two's complement *)
Definition wrap_int (z : Z) : Z := (z + 2 ^ 63) mod 2 ^ 64 - 2 ^ 63.
Definition int_add (a b : Z) : Z := wrap_int (a + b).

(** ** [fmt.Sprintf] with the verbs [%d] and [%03d] *)

Definition digitChar (d : N) : ascii := ascii_of_N (48 + d).

(** The [w] low decimal digits of [n], most significant first. *)
Fixpoint decimal (w : nat) (n : N) : string :=
  match w with
  | O => EmptyString
  | S w' => String (digitChar ((n / 10 ^ N.of_nat w') mod 10)) (decimal w' n)
  end.

(** The number of decimal digits of [n] (one for [0]). *)
Fixpoint ndigits_fuel (fuel : nat) (n : N) : nat :=
  match fuel with
  | O => 1
  | S fuel' => if (n <? 10)%N then 1%nat else S (ndigits_fuel fuel' (n / 10))
  end.
Definition ndigits (n : N) : nat := ndigits_fuel (N.to_nat (N.log2 n)) n.

(** [%d]: a minus sign for a negative number, then the digits. *)
Definition Sprintf_d (z : Z) : string :=
  let n := Z.abs_N z in
  if (z <? 0)%Z then "-" ++ decimal (ndigits n) n else decimal (ndigits n) n.

(** [%03d]: as [%d], padded with zeros after the sign to a width of 3. *)
Definition Sprintf_03d (z : Z) : string :=
  let n := Z.abs_N z in
  if (z <? 0)%Z then "-" ++ decimal (Nat.max 2 (ndigits n)) n
  else decimal (Nat.max 3 (ndigits n)) n.

(** [fmt.Sprintf("chunk_%d_%03d.dat", timestamp, num)]. *)
Definition chunkName (timestamp num : Z) : string :=
  "chunk_" ++ Sprintf_d timestamp ++ "_" ++ Sprintf_03d num ++ ".dat".

(** ** [path/filepath]

    [filepath.Join] of a cleaned directory and a cleaned relative path,
    which is what the program passes ([filepath.Rel] returns cleaned
    paths): the two joined by one separator. *)
Definition Join (dir name : string) : string := dir ++ "/" ++ name.

Fixpoint hasSlash (s : string) : bool :=
  match s with
  | EmptyString => false
  | String c s' => Ascii.eqb c "/" || hasSlash s'
  end.

(** Everything before the last separator. *)
Fixpoint dirPrefix (p : string) : string :=
  match p with
  | EmptyString => EmptyString
  | String c rest => if hasSlash rest then String c (dirPrefix rest) else EmptyString
  end.

(** [filepath.Dir]: the path without its last element; ["."] when nothing
    is left of a relative path, ["/"] when nothing is left of a rooted one. *)
Definition Dir (p : string) : string :=
  match dirPrefix p with
  | EmptyString => if String.prefix "/" p then "/" else "."
  | d => d
  end.

(** [filepath.Match] for patterns made of literal characters and [*]; a
    star matches any run of characters other than the separator. *)
Fixpoint globMatch (pat s : string) : bool :=
  match pat with
  | EmptyString => match s with EmptyString => true | _ => false end
  | String p pat' =>
      if Ascii.eqb p "*" then
        (fix star (s : string) : bool :=
           globMatch pat' s ||
           match s with
           | EmptyString => false
           | String c s' => negb (Ascii.eqb c "/") && star s'
           end) s
      else
        match s with
        | EmptyString => false
        | String c s' => Ascii.eqb p c && globMatch pat' s'
        end
  end.

(** [filepath.Glob]: the paths of the disk that match the pattern; the
    only error is a malformed pattern. *)
Definition Glob (env : Env) (pattern : string) (disk : gmap string File)
  : result (list string) :=
  if bad_pattern env pattern then Err ErrBadPattern
  else Ok (filter (fun p => globMatch pattern p = true) (map fst (map_to_list disk))).

(** ** [sort.Strings]: ascending in byte-wise lexicographic order *)
Fixpoint insertBy {A} (le : A -> A -> bool) (x : A) (l : list A) : list A :=
  match l with
  | [] => [x]
  | y :: l' => if le x y then x :: l else y :: insertBy le x l'
  end.
Definition sortBy {A} (le : A -> A -> bool) (l : list A) : list A :=
  foldr (insertBy le) [] l.
Definition sort_Strings (l : list string) : list string := sortBy String.leb l.

(** ** [encoding/gob]

    What the program uses of the codec: an encoder of chunks to bytes and
    a decoder that may fail. *)
Class Gob := {
  gobEncode : Chunk -> list byte;
  gobDecode : list byte -> option Chunk
}.


(** ** System calls *)

(** [os.MkdirAll]: directories are not part of the disk's state. *)
Definition MkdirAll (env : Env) (path : string) : M unit :=
  fun disk => if mkdirAll_fails env path then (disk, Err (ErrIO path))
              else (disk, Ok tt).

(** Opening for writing with [O_CREATE|O_TRUNC]: the permission bits are
    those of the file already there, if any, and [perm] otherwise. *)
Definition truncated (env : Env) (disk : gmap string File) (path : string)
    (perm : N) (bytes : list byte) : File :=
  {| fbytes := bytes;
     fperm := match disk !! path with Some f => fperm f | None => perm end;
     fmtime := now env |}.

(** [os.WriteFile(path, bytes, perm)]. *)
Definition WriteFile (env : Env) (path : string) (bytes : list byte) (perm : N)
  : M unit :=
  fun disk => if writeFile_fails env path then (disk, Err (ErrIO path))
              else (<[path := truncated env disk path perm bytes]> disk, Ok tt).

(** [os.Chtimes(path, t, t)]. *)
Definition Chtimes (env : Env) (path : string) (t : Z) : M unit :=
  fun disk =>
    if chtimes_fails env path then (disk, Err (ErrIO path))
    else match disk !! path with
         | Some f => (<[path := {| fbytes := fbytes f; fperm := fperm f; fmtime := t |}]> disk, Ok tt)
         | None => (disk, Err (ErrIO path))
         end.

(** [if err := m; err != nil { log.Printf(...) }]: the error is logged and
    dropped. *)
Definition logged (m : M unit) : M unit :=
  fun disk => (fst (m disk), Ok tt).

(** ** [backup.go] *)

(** [writeChunk]: [os.Create] the segment file (mode [0666]) and encode
    the chunk into it.  The failure considered is that of [os.Create]. *)
Definition writeChunk `{Gob} (env : Env) (backupPath : string)
    (timestamp num : Z) (chunk : Chunk) : M unit :=
  fun disk =>
    let filename := Join backupPath (chunkName timestamp num) in
    if create_fails env filename then (disk, Err (ErrIO filename))
    else (<[filename := truncated env disk filename 438 (gobEncode chunk)]> disk, Ok tt).

(** The [for _, entry := range entries] loop of [createBackup], with its
    three variables [chunkNum], [currentChunk] and [currentSize].  When the
    segment is closed the three are reset ([chunkNum++], [Chunk{}], [0])
    before the record is appended. *)
Fixpoint backupLoop `{Gob} (env : Env) (backupPath : string) (timestamp : Z)
    (entries : list FileEntry) (chunkNum : Z) (currentChunk : Chunk)
    (currentSize : Z) : M (Z * Chunk) :=
  match entries with
  | [] => mret (chunkNum, currentChunk)
  | entry :: rest =>
      let entrySize := int_add (Z.of_nat (length (Content entry))) 1024 in
      if (int_add currentSize entrySize >? chunkSize)%Z
         && (0 <? length (Entries currentChunk))%nat
      then
        writeChunk env backupPath timestamp chunkNum currentChunk ;;
        backupLoop env backupPath timestamp rest (int_add chunkNum 1)
          (mkChunk ([] ++ [entry])) (int_add 0 entrySize)
      else
        backupLoop env backupPath timestamp rest chunkNum
          (mkChunk (Entries currentChunk ++ [entry])) (int_add currentSize entrySize)
  end.

(** [createBackup]: one timestamp for the call, the loop, and the last
    segment when it holds a record. *)
Definition createBackup `{Gob} (env : Env) (backupPath : string)
    (entries : list FileEntry) : M unit :=
  let timestamp := Unix (now env) in
  '(chunkNum, currentChunk) ← backupLoop env backupPath timestamp entries 0 (mkChunk []) 0;
  if (0 <? length (Entries currentChunk))%nat
  then writeChunk env backupPath timestamp chunkNum currentChunk
  else mret tt.

(** ** [restore.go] *)

(** [readChunk]: open the file and decode it. *)
Definition readChunk `{Gob} (env : Env) (filename : string)
    (disk : gmap string File) : result Chunk :=
  if open_fails env filename then Err (ErrIO filename)
  else match disk !! filename with
       | None => Err (ErrIO filename)
       | Some f => match gobDecode (fbytes f) with
                   | Some chunk => Ok chunk
                   | None => Err ErrDecode
                   end
       end.

(** The first loop of [restore]: a segment that cannot be read is logged
    and skipped ([continue]). *)
Definition replay `{Gob} (env : Env) (disk : gmap string File)
    (files : list string) : RestoreState :=
  fold_left
    (fun st chunkFile =>
       match readChunk env chunkFile disk with
       | Err _ => st
       | Ok chunk => applyChunk st chunk
       end)
    files emptyState.

(** The second loop of [restore], over the live records. *)
Fixpoint materialize (env : Env) (restorePath : string)
    (entries : list FileEntry) : M unit :=
  match entries with
  | [] => mret tt
  | entry :: rest =>
      let targetPath := Join restorePath (Path entry) in
      MkdirAll env (Dir targetPath) ;;
      WriteFile env targetPath (Content entry) (Mode entry) ;;
      logged (Chtimes env targetPath (ModTime entry)) ;;
      materialize env restorePath rest
  end.

(** [restore].  Go ranges over [fileData] in an unspecified order; here
    it is the order of [map_to_list]. *)
Definition restore `{Gob} (env : Env) (backupPath restorePath : string) : M unit :=
  MkdirAll env restorePath ;;
  files ← reading (Glob env (Join backupPath "chunk_*.dat"));
  if (length files =? 0)%nat then fail (ErrNoChunks backupPath)
  else
    st ← reading (fun disk => Ok (replay env disk (sort_Strings files)));
    materialize env restorePath (map snd (map_to_list (fileData st))).

(** ** [watch.go] *)

#[export] Instance result_ret : MRet result := @Ok.
#[export] Instance result_bind : MBind result :=
  fun A B k r => match r with Ok a => k a | Err e => Err e end.

(** [os.FileInfo]: what [d.Info()] gives for a file. *)
Record FileInfo := mkFileInfo { iMode : N; iModTime : Z; iSize : Z }.

(** A file as [filepath.WalkDir] presents it: what [filepath.Rel] returns
    for its path, the bytes [hashFile] gets from it, what [d.Info()]
    returns, and what [os.ReadFile] returns afterwards. *)
Record WalkedFile := mkWalkedFile {
  wRel : result string;
  wHashed : result (list byte);
  wInfo : result FileInfo;
  wRead : result (list byte)
}.

(** One call of the walk function: with an error, on a directory, or on
    a file. *)
Inductive WalkEvent :=
| WalkError (e : error)
| WalkDirectory
| WalkFile (f : WalkedFile).

(** [filepath.WalkDir]: call [fn] on each event in turn; the first error
    [fn] returns ends the walk and is returned. *)
Fixpoint WalkDir {S} (fn : S -> WalkEvent -> result S) (walk : list WalkEvent)
    (s : S) : result S :=
  match walk with
  | [] => Ok s
  | ev :: rest => s' ← fn s ev; WalkDir fn rest s'
  end.

(** [hashFile]: open the file, digest its bytes, print the digest. *)
Definition hashFile (env : Env) (f : WalkedFile) : result string :=
  content ← wHashed f; Ok (sha256Hex env content).

(** The walk function of [detectChanges]; its state is the pair of the
    local variables [current] and [changes]. *)
Definition visit (env : Env) (snapshot : gmap string string)
    (s : gmap string string * list FileEntry) (ev : WalkEvent)
  : result (gmap string string * list FileEntry) :=
  let '(current, changes) := s in
  match ev with
  | WalkError e => Err e
  | WalkDirectory => Ok (current, changes)
  | WalkFile f =>
      relPath ← wRel f;
      hash ← hashFile env f;
      let current := <[relPath := hash]> current in
      let changed :=
        match snapshot !! relPath with
        | Some oldHash => negb (String.eqb oldHash hash)
        | None => true
        end in
      if changed then
        info ← wInfo f;
        content ← wRead f;
        Ok (current,
            (changes ++ [ {| Path := relPath; Mode := iMode info;
                             ModTime := iModTime info; Size := iSize info;
                             Content := content; Deleted := false |} ])%list)
      else Ok (current, changes)
  end.

(** [&FileEntry{Path: oldPath, Deleted: true}]. *)
Definition tombstone (oldPath : string) : FileEntry :=
  {| Path := oldPath; Mode := 0; ModTime := 0; Size := 0; Content := [];
     Deleted := true |}.

(** The records appended by
    [for oldPath := range snapshot { if _, exists := current[oldPath]; !exists {...} }]. *)
Definition deletions (snapshot current : gmap string string) : list FileEntry :=
  tombstone <$>
    filter (fun oldPath => current !! oldPath = None) (map fst (map_to_list snapshot)).

(** [maps.Copy(snapshot, current)] followed by the deletion of every key
    that is not in [current]. *)
Definition updateSnapshot (snapshot current : gmap string string)
  : gmap string string :=
  filter (fun kv => is_Some (current !! kv.1)) (current ∪ snapshot).

(** [detectChanges]: the returned pair [(changes, err)] and the snapshot
    map as the call leaves it. *)
Definition detectChanges (env : Env) (walk : list WalkEvent)
    (snapshot : gmap string string)
  : list FileEntry * option error * gmap string string :=
  match WalkDir (visit env snapshot) walk (∅, []) with
  | Err err => ([], Some err, snapshot)
  | Ok (current, changes) =>
      ((changes ++ deletions snapshot current)%list, None, updateSnapshot snapshot current)
  end.

(** One pass of the [for] loop of [watch]: the errors of [detectChanges]
    and of [createBackup] are logged and dropped; the snapshot map is the
    one [detectChanges] left. *)
Definition watchPass `{Gob} (env : Env) (backupPath : string)
    (walk : list WalkEvent) (snapshot : gmap string string)
  : M (gmap string string) :=
  let '(changes, err, snapshot') := detectChanges env walk snapshot in
  (if (0 <? length changes)%nat
   then logged (createBackup env backupPath changes)
   else mret tt) ;;
  mret snapshot'.

(** The loop of [watch] never ends; [watchLoop] runs it for the passes
    given, each with the environment and the tree it finds after its
    sleep, and returns the snapshot it has reached. *)
Fixpoint watchLoop `{Gob} (backupPath : string)
    (passes : list (Env * list WalkEvent)) (snapshot : gmap string string)
  : M (gmap string string) :=
  match passes with
  | [] => mret snapshot
  | (env, walk) :: rest =>
      snapshot' ← watchPass env backupPath walk snapshot;
      watchLoop backupPath rest snapshot'
  end.

(** [watch]: create the backup directory, start from the empty snapshot
    and loop. *)
Definition watch `{Gob} (env : Env) (backupPath : string)
    (passes : list (Env * list WalkEvent)) : M (gmap string string) :=
  MkdirAll env backupPath ;;
  watchLoop backupPath passes ∅.

(** ** A wire format for chunks

    One codec meeting the interface: integers as in [encoding/binary]
    (base-128 groups, least significant first, the high bit set on all but
    the last; signed integers zig-zag folded), byte strings with their
    length first, a chunk as its number of records followed by the
    records, field by field. *)
Module Wire.

Definition byteOf (n : N) : byte :=
  match Byte.of_N n with Some b => b | None => x00 end.

Fixpoint putUvarint_fuel (fuel : nat) (n : N) : list byte :=
  match fuel with
  | O => []
  | S fuel' =>
      if (n <? 128)%N then [byteOf n]
      else byteOf (128 + n mod 128) :: putUvarint_fuel fuel' (n / 128)
  end.

Definition putUvarint (n : N) : list byte :=
  putUvarint_fuel (S (N.to_nat (N.log2 n))) n.

Fixpoint getUvarint (bs : list byte) : option (N * list byte) :=
  match bs with
  | [] => None
  | b :: bs' =>
      let v := Byte.to_N b in
      if (v <? 128)%N then Some (v, bs')
      else match getUvarint bs' with
           | Some (hi, rest) => Some ((v - 128) + 128 * hi, rest)%N
           | None => None
           end
  end.

Definition zigzag (z : Z) : N :=
  if (z <? 0)%Z then Z.to_N (- 2 * z - 1) else Z.to_N (2 * z).
Definition unzigzag (n : N) : Z :=
  if N.even n then Z.of_N (n / 2) else - Z.of_N (n / 2) - 1.

Definition putVarint (z : Z) : list byte := putUvarint (zigzag z).
Definition getVarint (bs : list byte) : option (Z * list byte) :=
  '(n, rest) ← getUvarint bs; Some (unzigzag n, rest).

Definition putBytes (bs : list byte) : list byte :=
  putUvarint (N.of_nat (length bs)) ++ bs.
Definition getBytes (bs : list byte) : option (list byte * list byte) :=
  '(n, rest) ← getUvarint bs;
  if (N.to_nat n <=? length rest)%nat
  then Some (take (N.to_nat n) rest, drop (N.to_nat n) rest)
  else None.

Definition putBool (b : bool) : list byte := [if b then x01 else x00].
Definition getBool (bs : list byte) : option (bool * list byte) :=
  match bs with
  | x00 :: rest => Some (false, rest)
  | x01 :: rest => Some (true, rest)
  | _ => None
  end.

Definition putEntry (e : FileEntry) : list byte :=
  putBytes (list_byte_of_string (Path e)) ++ putUvarint (Mode e)
  ++ putVarint (ModTime e) ++ putVarint (Size e)
  ++ putBytes (Content e) ++ putBool (Deleted e).

Definition getEntry (bs : list byte) : option (FileEntry * list byte) :=
  '(path, bs) ← getBytes bs;
  '(mode, bs) ← getUvarint bs;
  '(modTime, bs) ← getVarint bs;
  '(size, bs) ← getVarint bs;
  '(content, bs) ← getBytes bs;
  '(deleted, bs) ← getBool bs;
  Some ({| Path := string_of_list_byte path; Mode := mode; ModTime := modTime;
           Size := size; Content := content; Deleted := deleted |}, bs).

Fixpoint getEntries (n : nat) (bs : list byte)
  : option (list FileEntry * list byte) :=
  match n with
  | O => Some ([], bs)
  | S n' =>
      '(e, bs) ← getEntry bs;
      '(es, bs) ← getEntries n' bs;
      Some (e :: es, bs)
  end.

Definition putChunk (c : Chunk) : list byte :=
  putUvarint (N.of_nat (length (Entries c))) ++ concat (map putEntry (Entries c)).

Definition getChunk (bs : list byte) : option Chunk :=
  '(n, bs) ← getUvarint bs;
  '(es, _) ← getEntries (N.to_nat n) bs;
  Some (mkChunk es).

End Wire.

Definition wireGob : Gob :=
  {| gobEncode := Wire.putChunk; gobDecode := Wire.getChunk |}.

(** ** Notions used to state the properties *)

(** The last record for [path] in a sequence of records, if any. *)
Definition lastRecord (path : string) (records : list FileEntry)
  : option FileEntry :=
  last (filter (fun e => Path e = path) records).

(** The chunks of the segments that can be read and decoded, in order. *)
Definition decodedChunks `{Gob} (env : Env) (disk : gmap string File)
    (files : list string) : list Chunk :=
  omap (fun f => match readChunk env f disk with
                 | Ok chunk => Some chunk
                 | Err _ => None
                 end) files.

(** The journal: the records of the decodable segments, in order. *)
Definition journal `{Gob} (env : Env) (disk : gmap string File)
    (files : list string) : list FileEntry :=
  concat (Entries <$> decodedChunks env disk files).

(** The fold of [restore] over a plain sequence of records. *)
Definition foldRecords (records : list FileEntry) : RestoreState :=
  fold_left applyEntry records emptyState.

(** The file that one iteration of the second loop of [restore] leaves at
    [target]. *)
Definition restoredFile (env : Env) (disk : gmap string File) (target : string)
    (entry : FileEntry) : File :=
  {| fbytes := Content entry;
     fperm := match disk !! target with Some f => fperm f | None => Mode entry end;
     fmtime := if chtimes_fails env target then now env else ModTime entry |}.

(** The segment files of a backup location in the order [restore] reads
    them (none when the listing fails). *)
Definition segmentFiles (env : Env) (backupPath : string)
    (disk : gmap string File) : list string :=
  match Glob env (Join backupPath "chunk_*.dat") disk with
  | Ok files => sort_Strings files
  | Err _ => []
  end.

(** The files the walk presents, each with its relative path and its
    fingerprint. *)
Definition present (env : Env) (walk : list WalkEvent) : list (string * string) :=
  omap (fun ev =>
          match ev with
          | WalkFile f =>
              match wRel f, hashFile env f with
              | Ok relPath, Ok hash => Some (relPath, hash)
              | _, _ => None
              end
          | _ => None
          end) walk.

(** [current[relPath] = hash]. *)
Definition record (current : gmap string string) (kv : string * string)
  : gmap string string :=
  <[kv.1 := kv.2]> current.

(** The size the writer counts for a record, and for a segment. *)
Definition entrySize (e : FileEntry) : Z := Z.of_nat (length (Content e)) + 1024.
Definition segmentSize (seg : list FileEntry) : Z :=
  foldr (fun e acc => entrySize e + acc) 0 seg.

(** Writing the given segments one after the other, numbered from [num]. *)
Fixpoint writeSegments `{Gob} (env : Env) (backupPath : string) (timestamp num : Z)
    (segs : list (list FileEntry)) : M unit :=
  match segs with
  | [] => mret tt
  | seg :: rest =>
      writeChunk env backupPath timestamp num (mkChunk seg) ;;
      writeSegments env backupPath timestamp (num + 1) rest
  end.

(** A segment within the soft limit, or of one record. *)
Definition fits (seg : list FileEntry) : Prop :=
  length seg = 1%nat ∨ segmentSize seg <= chunkSize.

(** Each segment was closed only because the first record of the next
    one would have taken it over the limit. *)
Fixpoint greedy (segs : list (list FileEntry)) : Prop :=
  match segs with
  | [] => True
  | seg :: rest =>
      match rest with
      | [] => True
      | next :: _ =>
          match next with
          | [] => False
          | e :: _ => segmentSize seg + entrySize e > chunkSize
          end
      end ∧ greedy rest
  end.

(** A record whose content is far from exhausting the address space. *)
Definition small (e : FileEntry) : Prop := Z.of_nat (length (Content e)) < 2 ^ 61.

(** A segment's place in the journal: its timestamp and its sequence
    number, compared in that order. *)
Definition keyCompare (k1 k2 : Z * Z) : comparison :=
  match (k1.1 ?= k2.1)%Z with
  | Eq => (k1.2 ?= k2.2)%Z
  | c => c
  end.
Definition keyLeb (k1 k2 : Z * Z) : bool :=
  match keyCompare k1 k2 with Gt => false | _ => true end.
Definition sortKeys (keys : list (Z * Z)) : list (Z * Z) := sortBy keyLeb keys.

(** The path [writeChunk] gives the segment with this key. *)
Definition segmentPath (backupPath : string) (k : Z * Z) : string :=
  Join backupPath (chunkName k.1 k.2).

(** The record [detectChanges] appends for a changed file. *)
Definition changeRecord (relPath : string) (info : FileInfo)
    (content : list byte) : FileEntry :=
  {| Path := relPath; Mode := iMode info; ModTime := iModTime info;
     Size := iSize info; Content := content; Deleted := false |}.

(** The records of the files of a walk that are new to the snapshot or
    differ from it, in the order of the walk. *)
Definition changedRecords (env : Env) (snapshot : gmap string string)
    (walk : list WalkEvent) : list FileEntry :=
  omap (fun ev =>
          match ev with
          | WalkFile f =>
              match wRel f, hashFile env f, wInfo f, wRead f with
              | Ok relPath, Ok hash, Ok info, Ok content =>
                  if decide (snapshot !! relPath = Some hash) then None
                  else Some (changeRecord relPath info content)
              | _, _, _, _ => None
              end
          | _ => None
          end) walk.

(** The decimal digits, and the strings made of them. *)
Definition isDigit (c : ascii) : bool :=
  (48 <=? N_of_ascii c)%N && (N_of_ascii c <=? 57)%N.

Fixpoint allDigits (s : string) : bool :=
  match s with
  | EmptyString => true
  | String c s' => isDigit c && allDigits s'
  end.

(** Go's [hasMeta]: the characters that [filepath.Match] gives a meaning. *)
Definition isMeta (c : ascii) : bool :=
  Ascii.eqb c "*" || Ascii.eqb c "?" || Ascii.eqb c "[" || Ascii.eqb c "\".

Fixpoint hasMeta (s : string) : bool :=
  match s with
  | EmptyString => false
  | String c s' => isMeta c || hasMeta s'
  end.









(** ** Scenarios

    Concrete environments, journals and trees, after the tests of the
    repository; the lemmas below are evaluated on them. *)

(** An environment in which no system call is refused; the clock shows
    2024-01-01 12:00:00 UTC and the digest is the content itself. *)
Definition quietEnv : Env :=
  {| now := 63839707200000000000;
     sha256Hex := string_of_list_byte;
     mkdirAll_fails := fun _ => false;
     create_fails := fun _ => false;
     open_fails := fun _ => false;
     writeFile_fails := fun _ => false;
     chtimes_fails := fun _ => false;
     bad_pattern := fun _ => false |}.

(** The journal of [TestRestore_FileDeletedThenRecreated]: a file is
    created, then deleted, then created again. *)
Module Recreated.
Definition original : FileEntry :=
  {| Path := "file.txt"; Mode := 420; ModTime := 0; Size := 0;
     Content := list_byte_of_string "original"; Deleted := false |}.

Definition afterTwo : gmap string File :=
  (@writeChunk wireGob quietEnv "backup" 2000 0 (mkChunk [tombstone "file.txt"])
     (@writeChunk wireGob quietEnv "backup" 1000 0 (mkChunk [original]) ∅).1).1.
End Recreated.

(** The journal of [TestRestore_CorruptedChunk]: one well-formed segment
    and one segment of bytes that do not decode. *)
Module Corrupted.
Definition valid : FileEntry :=
  {| Path := "file.txt"; Mode := 420; ModTime := 0; Size := 0;
     Content := list_byte_of_string "content"; Deleted := false |}.
End Corrupted.

(** An environment that refuses to create the directory ["target"]. *)
Definition readOnlyTargetEnv : Env :=
  {| now := 63839707200000000000;
     sha256Hex := string_of_list_byte;
     mkdirAll_fails := fun p => String.eqb p "target";
     create_fails := fun _ => false;
     open_fails := fun _ => false;
     writeFile_fails := fun _ => false;
     chtimes_fails := fun _ => false;
     bad_pattern := fun _ => false |}.

(** A target that already holds two files, next to the two-segment
    journal in which [file.txt] ends tombstoned. *)
Module Stale.
Definition stale : File :=
  {| fbytes := list_byte_of_string "stale"; fperm := 384; fmtime := 7 |}.
Definition disk : gmap string File :=
  <["target/file.txt" := stale]> (<["target/other.txt" := stale]> Recreated.afterTwo).
End Stale.


(** A tree with one directory and two files, and a snapshot that knows
    one of them and a file that is gone. *)
Module Tree.
Definition file (relPath content : string) : WalkEvent :=
  WalkFile {| wRel := Ok relPath;
              wHashed := Ok (list_byte_of_string content);
              wInfo := Ok {| iMode := 420; iModTime := 5; iSize := 1 |};
              wRead := Ok (list_byte_of_string content) |}.
Definition unreadable (relPath : string) : WalkEvent :=
  WalkFile {| wRel := Ok relPath;
              wHashed := Err (ErrIO relPath);
              wInfo := Ok {| iMode := 420; iModTime := 5; iSize := 1 |};
              wRead := Err (ErrIO relPath) |}.
Definition walk : list WalkEvent :=
  [WalkDirectory; file "a.txt" "x"; WalkDirectory; file "sub/b.txt" "y"].
Definition brokenWalk : list WalkEvent :=
  [WalkDirectory; file "a.txt" "x"; unreadable "sub/b.txt"].
Definition snapshot : gmap string string :=
  <["a.txt" := "x"]> (<["gone.txt" := "z"]> ∅).
End Tree.

(** An environment in which the backup location cannot be written. *)
Definition fullDiskEnv : Env :=
  {| now := 63839707200000000000;
     sha256Hex := string_of_list_byte;
     mkdirAll_fails := fun _ => false;
     create_fails := fun _ => true;
     open_fails := fun _ => false;
     writeFile_fails := fun _ => false;
     chtimes_fails := fun _ => false;
     bad_pattern := fun _ => false |}.


(** Two segments of one run, on a disk where number 1000 sorts before
    number 999. *)
Definition manySegments : gmap string File :=
  (@writeChunk wireGob quietEnv "backup" 1 1000 (mkChunk [Corrupted.valid])
     (@writeChunk wireGob quietEnv "backup" 1 999
        (mkChunk [tombstone "old.txt"]) ∅).1).1.


(** The journal of [TestRestore_OnlyDeletedEntries]. *)
Definition onlyDeleted : gmap string File :=
  (@writeChunk wireGob quietEnv "backup" 1000 0
     (mkChunk [tombstone "deleted1.txt"; tombstone "deleted2.txt"]) ∅).1.

(** Five seconds after [quietEnv]. *)
Definition laterEnv : Env :=
  {| now := 63839707205000000000;
     sha256Hex := string_of_list_byte;
     mkdirAll_fails := fun _ => false;
     create_fails := fun _ => false;
     open_fails := fun _ => false;
     writeFile_fails := fun _ => false;
     chtimes_fails := fun _ => false;
     bad_pattern := fun _ => false |}.

(** The tree of [Tree.walk] after an edit: [a.txt] rewritten,
    [sub/b.txt] removed, [c.txt] added. *)
Module Edited.
Definition walk : list WalkEvent :=
  [WalkDirectory; Tree.file "a.txt" "x2"; Tree.file "c.txt" "z"].
End Edited.

(** A disk that holds the two files of [Tree.walk]. *)
Definition treeDisk : gmap string File :=
  <["tree/a.txt" := {| fbytes := list_byte_of_string "x"; fperm := 420; fmtime := 5 |}]>
    (<["tree/sub/b.txt" :=
         {| fbytes := list_byte_of_string "y"; fperm := 420; fmtime := 5 |}]> ∅).

(** * Properties *)

(** ** The restore fold *)

Lemma applyEntry_fileData_other st e p :
  Path e ≠ p -> fileData (applyEntry st e) !! p = fileData st !! p.
Proof.
  intros Hne. unfold applyEntry. destruct (Deleted e); simpl.
  - by rewrite lookup_delete_ne.
  - by rewrite lookup_insert_ne.
Qed.

Lemma applyEntry_deleted_other st e p :
  Path e ≠ p -> deletedFiles (applyEntry st e) !! p = deletedFiles st !! p.
Proof.
  intros Hne. unfold applyEntry. destruct (Deleted e); simpl.
  - by rewrite lookup_insert_ne.
  - by rewrite lookup_delete_ne.
Qed.

Lemma applyEntry_fileData_same st e :
  fileData (applyEntry st e) !! Path e = if Deleted e then None else Some e.
Proof.
  unfold applyEntry. destruct (Deleted e); simpl.
  - by rewrite lookup_delete_eq.
  - by rewrite lookup_insert_eq.
Qed.

Lemma applyEntry_deleted_same st e :
  deletedFiles (applyEntry st e) !! Path e = if Deleted e then Some true else None.
Proof.
  unfold applyEntry. destruct (Deleted e); simpl.
  - by rewrite lookup_insert_eq.
  - by rewrite lookup_delete_eq.
Qed.

Lemma lastRecord_snoc p records e :
  lastRecord p (records ++ [e]) =
  if decide (Path e = p) then Some e else lastRecord p records.
Proof.
  unfold lastRecord. rewrite filter_app, filter_cons, filter_nil.
  case_decide.
  - by rewrite last_snoc.
  - by rewrite app_nil_r.
Qed.

(** The state after a sequence of records, path by path: the live table
    holds the last record of the path when that record is not a tombstone,
    the tombstone table marks the path when it is. *)
Lemma foldRecords_lookup records p :
  fileData (foldRecords records) !! p =
    (e ← lastRecord p records; if Deleted e then None else Some e)
  ∧ deletedFiles (foldRecords records) !! p =
    (e ← lastRecord p records; if Deleted e then Some true else None).
Proof.
  unfold foldRecords.
  induction records as [|e records IH] using rev_ind.
  - simpl. by rewrite !lookup_empty.
  - rewrite fold_left_app. simpl. rewrite lastRecord_snoc.
    case_decide as Hp.
    + subst p. simpl. split.
      * apply applyEntry_fileData_same.
      * apply applyEntry_deleted_same.
    + rewrite applyEntry_fileData_other, applyEntry_deleted_other by done.
      exact IH.
Qed.

Lemma fold_applyEntry_app st (l1 l2 : list FileEntry) :
  fold_left applyEntry (l1 ++ l2) st =
  fold_left applyEntry l2 (fold_left applyEntry l1 st).
Proof. apply fold_left_app. Qed.

Lemma fold_applyChunk st (chunks : list Chunk) :
  fold_left applyChunk chunks st =
  fold_left applyEntry (concat (Entries <$> chunks)) st.
Proof.
  revert st. induction chunks as [|c chunks IH]; intros st; simpl; [done|].
  rewrite fold_applyEntry_app. apply IH.
Qed.

Section Replay.
Context `{G : Gob} (env : Env) (disk : gmap string File).

Lemma replay_from st files :
  fold_left
    (fun st chunkFile =>
       match readChunk env chunkFile disk with
       | Err _ => st
       | Ok chunk => applyChunk st chunk
       end) files st
  = fold_left applyChunk (decodedChunks env disk files) st.
Proof.
  revert st. induction files as [|f files IH]; intros st; simpl; [done|].
  unfold decodedChunks. simpl. destruct (readChunk env f disk); simpl.
  - apply IH.
  - apply IH.
Qed.

(** Replaying the segment files is folding the records of the journal:
    segments that cannot be read contribute nothing. *)
Lemma replay_journal files :
  replay env disk files = foldRecords (journal env disk files).
Proof.
  unfold replay, foldRecords, journal.
  rewrite replay_from. apply fold_applyChunk.
Qed.
End Replay.

(** ** Paths *)

Lemma append_inj_l (p a b : string) : p ++ a = p ++ b -> a = b.
Proof.
  induction p as [|c p IH]; simpl; [done|].
  intros Heq. injection Heq as Heq. by apply IH.
Qed.

Lemma Join_inj dir a b : Join dir a = Join dir b -> a = b.
Proof.
  unfold Join. intros Heq. apply append_inj_l in Heq.
  by apply (append_inj_l "/") in Heq.
Qed.

(** ** Materialization *)

Lemma materialize_cons env rp entry rest disk :
  materialize env rp (entry :: rest) disk =
  let target := Join rp (Path entry) in
  if mkdirAll_fails env (Dir target) then (disk, Err (ErrIO (Dir target)))
  else if writeFile_fails env target then (disk, Err (ErrIO target))
  else materialize env rp rest (<[target := restoredFile env disk target entry]> disk).
Proof.
  cbn [materialize]. unfold mbind, M_bind, bind, MkdirAll, WriteFile, logged, Chtimes.
  cbv zeta.
  destruct (mkdirAll_fails env _); [done|].
  destruct (writeFile_fails env _); [done|].
  unfold restoredFile, truncated.
  destruct (chtimes_fails env _); simpl; [done|].
  rewrite lookup_insert_eq. simpl. by rewrite insert_insert_eq.
Qed.











(** ** [restore] as a whole *)

Lemma restore_unfold `{G : Gob} env backupPath restorePath disk :
  restore env backupPath restorePath disk =
  if mkdirAll_fails env restorePath then (disk, Err (ErrIO restorePath))
  else match Glob env (Join backupPath "chunk_*.dat") disk with
       | Err e => (disk, Err e)
       | Ok files =>
           if (length files =? 0)%nat then (disk, Err (ErrNoChunks backupPath))
           else materialize env restorePath
                  (map snd (map_to_list
                     (fileData (replay env disk (segmentFiles env backupPath disk)))))
                  disk
       end.
Proof.
  unfold restore, segmentFiles, mbind, M_bind, bind, MkdirAll, reading, fail.
  destruct (mkdirAll_fails env restorePath); [done|].
  destruct (Glob env _ disk) as [files|e]; [|done].
  by destruct (length files =? 0)%nat.
Qed.


Lemma disjoint_applyEntry st e :
  dom (fileData st) ## dom (deletedFiles st) ->
  dom (fileData (applyEntry st e)) ## dom (deletedFiles (applyEntry st e)).
Proof.
  intros Hd. unfold applyEntry. destruct (Deleted e); simpl;
    rewrite dom_delete_L, dom_insert_L; intros q Hq1 Hq2.
  - apply elem_of_difference in Hq1 as [Hq1 Hne].
    apply elem_of_union in Hq2 as [Hq2|Hq2]; [done|]. by apply (Hd q).
  - apply elem_of_difference in Hq2 as [Hq2 Hne].
    apply elem_of_union in Hq1 as [Hq1|Hq1]; [done|]. by apply (Hd q).
Qed.

Lemma disjoint_fold records st :
  dom (fileData st) ## dom (deletedFiles st) ->
  dom (fileData (fold_left applyEntry records st))
    ## dom (deletedFiles (fold_left applyEntry records st)).
Proof.
  revert st. induction records as [|e records IH]; intros st Hd; simpl; [done|].
  apply IH. by apply disjoint_applyEntry.
Qed.

Lemma disjoint_foldRecords records :
  dom (fileData (foldRecords records)) ## dom (deletedFiles (foldRecords records)).
Proof.
  apply disjoint_fold. simpl. rewrite !dom_empty_L.
  intros q Hq. by apply not_elem_of_empty in Hq.
Qed.

(** C10.  After any prefix of the journal's records has been folded, the
    live table [fileData] and the tombstone table [deletedFiles] have no
    key in common; every step of the loop keeps it so, because it removes
    the path from one table when it enters it into the other. *)
Theorem restore_fold_tables_disjoint `{G : Gob} (env : Env)
    (disk : gmap string File) (files : list string) (n : nat) (e : FileEntry) :
  let st := foldRecords (take n (journal env disk files)) in
  dom (fileData st) ## dom (deletedFiles st)
  ∧ dom (fileData (applyEntry st e)) ## dom (deletedFiles (applyEntry st e))
  ∧ dom (fileData (replay env disk files)) ## dom (deletedFiles (replay env disk files)).
Proof.
  cbv zeta. split; [|split].
  - apply disjoint_foldRecords.
  - apply disjoint_applyEntry, disjoint_foldRecords.
  - rewrite replay_journal. apply disjoint_foldRecords.
Qed.

Lemma replay_lookup `{G : Gob} env disk files p :
  fileData (replay env disk files) !! p =
    (e ← lastRecord p (journal env disk files); if Deleted e then None else Some e)
  ∧ deletedFiles (replay env disk files) !! p =
    (e ← lastRecord p (journal env disk files); if Deleted e then Some true else None).
Proof. rewrite replay_journal. apply foldRecords_lookup. Qed.













(** ** The wire format round-trips *)

Module WireFacts.
Import Wire.













End WireFacts.


(** ** Writing a segment and reading it back *)



(** ** The Differ *)

Lemma fold_record_lookup (l : list (string * string)) (m0 : gmap string string) r h :
  NoDup (l.*1) ->
  fold_left record l m0 !! r = Some h
  <-> ((r, h) ∈ l) ∨ ((r ∉ (l.*1)) ∧ m0 !! r = Some h).
Proof.
  revert m0. induction l as [|[k v] l IH]; intros m0 Hnd.
  - simpl. split; [intros ?; right; split; [apply not_elem_of_nil|done]|].
    intros [Hin|[_ ?]]; [by apply elem_of_nil in Hin|done].
  - rewrite fmap_cons in Hnd. apply NoDup_cons in Hnd as [Hk Hnd]. simpl in Hk.
    cbn [fold_left]. rewrite (IH _ Hnd). unfold record. simpl.
    rewrite elem_of_cons, not_elem_of_cons.
    destruct (decide (k = r)) as [->|Hne].
    + rewrite lookup_insert_eq. split.
      * intros [Hin|[_ [= ->]]]; [|by left; left].
        exfalso. apply Hk. apply list_elem_of_fmap. by exists (r, h).
      * intros [[[= ->]|Hin]|[[? _] _]]; [|by left|done].
        right. split; [done|done].
    + rewrite lookup_insert_ne by done. split.
      * intros [Hin|[Hout Hm]]; [by left; right|]. right. split; [split|]; done.
      * intros [[[= -> ->]|Hin]|[[_ Hout] Hm]]; [done|by left|by right].
Qed.

Lemma present_cons env ev walk :
  present env (ev :: walk) =
  match ev with
  | WalkFile f =>
      match wRel f, hashFile env f with
      | Ok relPath, Ok hash => (relPath, hash) :: present env walk
      | _, _ => present env walk
      end
  | _ => present env walk
  end.
Proof.
  unfold present. destruct ev as [e|  |f]; try reflexivity.
  simpl. destruct (wRel f); [|reflexivity]. by destruct (hashFile env f).
Qed.

(** A walk that completes has recorded in [current] the fingerprint of
    every file it presented. *)
Lemma WalkDir_current env snapshot walk current changes current' changes' :
  WalkDir (visit env snapshot) walk (current, changes) = Ok (current', changes') ->
  current' = fold_left record (present env walk) current.
Proof.
  revert current changes.
  induction walk as [|ev walk IH]; intros current changes Hrun.
  - simpl in Hrun. by injection Hrun as <- _.
  - cbn [WalkDir] in Hrun. unfold mbind, result_bind in Hrun.
    destruct (visit env snapshot (current, changes) ev) as [[cur1 ch1]|e] eqn:Hev;
      [|done].
    apply IH in Hrun. subst current'. rewrite present_cons.
    destruct ev as [e|  |f]; simpl in Hev.
    + done.
    + by injection Hev as <- <-.
    + unfold mbind, result_bind in Hev.
      destruct (wRel f) as [r|]; [|done].
      destruct (hashFile env f) as [h|]; [|done].
      cbn [fold_left]. f_equal.
      destruct (match snapshot !! r with Some oldHash => negb (oldHash =? h)%string
                                      | None => true end).
      * destruct (wInfo f); [|done]. destruct (wRead f); [|done].
        by injection Hev as <- _.
      * by injection Hev as <- _.
Qed.

(** When the snapshot already holds the fingerprint of every file, a walk
    that completed before completes again and reports nothing. *)
Lemma WalkDir_unchanged env snapshot0 snapshot walk s0 s0' current changes :
  WalkDir (visit env snapshot0) walk s0 = Ok s0' ->
  (forall r h, (r, h) ∈ present env walk -> snapshot !! r = Some h) ->
  WalkDir (visit env snapshot) walk (current, changes)
  = Ok (fold_left record (present env walk) current, changes).
Proof.
  revert s0 current.
  induction walk as [|ev walk IH]; intros s0 current Hrun Hsnap; [done|].
  cbn [WalkDir] in Hrun |- *. unfold mbind, result_bind in Hrun |- *.
  destruct (visit env snapshot0 s0 ev) as [s1|e] eqn:Hev; [|done].
  rewrite present_cons in Hsnap |- *.
  destruct s0 as [cur0 ch0].
  destruct ev as [e|  |f]; simpl in Hev.
  - done.
  - simpl. eapply IH; eauto.
  - unfold mbind, result_bind in Hev. cbn [visit]. unfold mbind, result_bind.
    destruct (wRel f) as [r|]; [|done].
    destruct (hashFile env f) as [h|]; [|done].
    rewrite (Hsnap r h) by apply list_elem_of_here.
    rewrite String.eqb_refl. cbn [negb fold_left].
    eapply IH; [exact Hrun|].
    intros r' h' Hin. apply Hsnap. by apply list_elem_of_further.
Qed.

Lemma updateSnapshot_current snapshot current :
  updateSnapshot snapshot current = current.
Proof.
  unfold updateSnapshot. apply map_eq. intros k.
  destruct (current !! k) as [v|] eqn:Hk.
  - apply map_lookup_filter_Some. split.
    + apply lookup_union_Some_raw. by left.
    + simpl. by rewrite Hk.
  - apply map_lookup_filter_None. right. intros v _. simpl. rewrite Hk.
    by intros [? ?].
Qed.

Lemma filter_none {A} (P : A -> Prop) `{forall x, Decision (P x)} (l : list A) :
  (forall x, x ∈ l -> ~ P x) -> filter P l = [].
Proof.
  induction l as [|x l IH]; intros Hall; [done|].
  rewrite filter_cons. rewrite decide_False.
  - apply IH. intros y Hy. apply Hall. by apply list_elem_of_further.
  - apply Hall. apply list_elem_of_here.
Qed.

Lemma deletions_same current : deletions current current = [].
Proof.
  unfold deletions. rewrite filter_none; [done|].
  intros k Hk Hnone.
  apply list_elem_of_fmap in Hk as ([k' v] & -> & Hkv).
  apply elem_of_map_to_list in Hkv. simpl in Hnone. congruence.
Qed.

Lemma WalkDir_fails env snapshot walk :
  (exists ev, ev ∈ walk ∧ forall s, exists e, visit env snapshot s ev = Err e) ->
  forall s, exists e, WalkDir (visit env snapshot) walk s = Err e.
Proof.
  induction walk as [|ev0 walk IH]; intros (ev & Hin & Hfail) s.
  - by apply elem_of_nil in Hin.
  - cbn [WalkDir]. unfold mbind, result_bind.
    destruct (visit env snapshot s ev0) as [s1|e] eqn:Hev; [|by exists e].
    apply elem_of_cons in Hin as [->|Hin].
    + destruct (Hfail s) as [e He]. congruence.
    + apply IH. by exists ev.
Qed.

Lemma visit_changed_unreadable env snapshot f r b s :
  wRel f = Ok r -> wHashed f = Ok b ->
  snapshot !! r ≠ Some (sha256Hex env b) ->
  (exists e, wInfo f = Err e) ∨ (exists e, wRead f = Err e) ->
  exists e', visit env snapshot s (WalkFile f) = Err e'.
Proof.
  intros Hrel Hhash Hchanged Hbad. destruct s as [current changes]. simpl.
  unfold mbind, result_bind, hashFile. unfold mbind, result_bind.
  rewrite Hrel, Hhash.
  assert (Hc : match snapshot !! r with
               | Some oldHash => negb (oldHash =? sha256Hex env b)%string
               | None => true
               end = true).
  { destruct (snapshot !! r) as [oldHash|]; [|done].
    apply negb_true_iff, String.eqb_neq. congruence. }
  rewrite Hc.
  destruct Hbad as [[e He]|[e He]]; rewrite He; [eauto|].
  destruct (wInfo f); eauto.
Qed.

Lemma visit_unreadable env snapshot f e s :
  wHashed f = Err e -> exists e', visit env snapshot s (WalkFile f) = Err e'.
Proof.
  intros Hread. destruct s as [current changes]. simpl.
  unfold mbind, result_bind, hashFile. unfold mbind, result_bind. rewrite Hread.
  destruct (wRel f); eauto.
Qed.

(** C7.  When the Differ fails it returns no change record and leaves the
    snapshot exactly as it was; and it does fail whenever the walk reports
    an error, a file cannot be digested, or a changed file cannot be
    stat-ed or read. *)
Theorem detectChanges_error_atomic (env : Env) (walk : list WalkEvent)
    (snapshot : gmap string string) :
  (forall changes err snapshot',
     detectChanges env walk snapshot = (changes, Some err, snapshot') ->
     changes = [] ∧ snapshot' = snapshot)
  ∧ ((exists e, WalkError e ∈ walk)
     ∨ (exists f e, WalkFile f ∈ walk ∧ wHashed f = Err e)
     ∨ (exists f r b,
          WalkFile f ∈ walk ∧ wRel f = Ok r ∧ wHashed f = Ok b
          ∧ snapshot !! r ≠ Some (sha256Hex env b)
          ∧ ((exists e, wInfo f = Err e) ∨ (exists e, wRead f = Err e))) ->
     exists err, detectChanges env walk snapshot = ([], Some err, snapshot)).
Proof.
  unfold detectChanges. split.
  - intros changes err snapshot'.
    destruct (WalkDir _ walk _) as [[current ch]|e]; [done|].
    by intros [= <- _ <-].
  - intros Hbad.
    destruct (WalkDir_fails env snapshot walk) with (s := (∅ : gmap string string, @nil FileEntry))
      as [e He].
    + destruct Hbad as [[e He]|[(f & e & Hf & Hread)|(f & r & b & Hf & Hr & Hb & Hch & Hno)]].
      * exists (WalkError e). split; [done|]. intros [current changes]. by exists e.
      * exists (WalkFile f). split; [done|]. intros s.
        eapply visit_unreadable. exact Hread.
      * exists (WalkFile f). split; [done|]. intros s.
        eapply visit_changed_unreadable; eauto.
    + exists e. by rewrite He.
Qed.

Lemma detectChanges_error_atomic_witness :
  detectChanges quietEnv Tree.brokenWalk Tree.snapshot
  = ([], Some (ErrIO "sub/b.txt"), Tree.snapshot).
Proof.
  destruct (detectChanges_error_atomic quietEnv Tree.brokenWalk Tree.snapshot)
    as [Hatomic _].
  destruct (Hatomic [] (ErrIO "sub/b.txt")
              (detectChanges quietEnv Tree.brokenWalk Tree.snapshot).2
              ltac:(vm_compute; reflexivity)) as [_ Hsnap].
  rewrite <- Hsnap at 2. vm_compute. reflexivity.
Defined.

(** C5.  A second call of the Differ on an unchanged tree reports no
    change: after a call that succeeded the snapshot maps exactly the
    relative paths of the files present to their fingerprints, and a call
    on that snapshot succeeds, reports nothing and leaves it as it is.
    (A walk presents each relative path once.) *)
Theorem detectChanges_idempotent (env : Env) (walk : list WalkEvent)
    (snapshot : gmap string string)
    (changes1 changes2 : list FileEntry) (err1 err2 : option error)
    (snapshot1 snapshot2 : gmap string string) :
  NoDup ((present env walk).*1) ->
  detectChanges env walk snapshot = (changes1, err1, snapshot1) ->
  detectChanges env walk snapshot1 = (changes2, err2, snapshot2) ->
  changes2 = []
  ∧ (err1 = None ->
     err2 = None ∧ snapshot2 = snapshot1
     ∧ forall r h, snapshot1 !! r = Some h <-> (r, h) ∈ present env walk).
Proof.
  intros Hnd. unfold detectChanges.
  destruct (WalkDir (visit env snapshot) walk (∅, [])) as [[current ch]|e] eqn:Hrun.
  - intros [= <- <- <-]. rewrite updateSnapshot_current.
    pose proof (WalkDir_current _ _ _ _ _ _ _ Hrun) as Hcur.
    assert (Hlookup : forall r h, current !! r = Some h <-> (r, h) ∈ present env walk).
    { intros r h. rewrite Hcur, (fold_record_lookup _ _ _ _ Hnd).
      rewrite lookup_empty. split; [by intros [?|[_ ?]] | by left]. }
    rewrite (WalkDir_unchanged env snapshot current walk _ _ ∅ [] Hrun)
      by (intros r h; apply Hlookup).
    rewrite <- Hcur, deletions_same, updateSnapshot_current.
    intros [= <- <- <-]. split; [done|]. intros _. split; [done|]. split; [done|].
    exact Hlookup.
  - intros [= <- <- <-]. rewrite Hrun. intros [= <- <- <-]. split; [done|]. done.
Qed.

Lemma detectChanges_idempotent_witness :
  (detectChanges quietEnv Tree.walk
     (detectChanges quietEnv Tree.walk Tree.snapshot).2).1.1 = [].
Proof.
  refine (proj1 (detectChanges_idempotent quietEnv Tree.walk Tree.snapshot
            (detectChanges quietEnv Tree.walk Tree.snapshot).1.1
            _
            (detectChanges quietEnv Tree.walk Tree.snapshot).1.2
            (detectChanges quietEnv Tree.walk
               (detectChanges quietEnv Tree.walk Tree.snapshot).2).1.2
            (detectChanges quietEnv Tree.walk Tree.snapshot).2
            (detectChanges quietEnv Tree.walk
               (detectChanges quietEnv Tree.walk Tree.snapshot).2).2
            _ _ _)).
  - vm_compute. apply NoDup_cons. split.
    + intros Hin. apply list_elem_of_singleton in Hin. discriminate Hin.
    + apply NoDup_singleton.
  - by destruct (detectChanges quietEnv Tree.walk Tree.snapshot) as [[? ?] ?].
  - by destruct (detectChanges quietEnv Tree.walk _) as [[? ?] ?].
Defined.

(** ** The Journal Writer *)

Local Open Scope list_scope.

Lemma wrap_int_small z : - 2 ^ 63 <= z < 2 ^ 63 -> wrap_int z = z.
Proof. intros Hz. unfold wrap_int. rewrite Z.mod_small; lia. Qed.

Lemma entrySize_pos e : 1024 <= entrySize e.
Proof. unfold entrySize. lia. Qed.

Lemma segmentSize_cons e seg : segmentSize (e :: seg) = entrySize e + segmentSize seg.
Proof. reflexivity. Qed.

Lemma segmentSize_app seg1 seg2 :
  segmentSize (seg1 ++ seg2) = segmentSize seg1 + segmentSize seg2.
Proof.
  induction seg1 as [|e seg1 IH]; [done|].
  rewrite <- app_comm_cons, !segmentSize_cons, IH. lia.
Qed.

Lemma segmentSize_nonneg seg : 0 <= segmentSize seg.
Proof.
  induction seg as [|e seg IH]; [done|].
  rewrite segmentSize_cons. pose proof (entrySize_pos e). lia.
Qed.

Lemma segmentSize_pos seg : seg ≠ [] -> 1024 <= segmentSize seg.
Proof.
  destruct seg as [|e seg]; [done|]. intros _. rewrite segmentSize_cons.
  pose proof (entrySize_pos e). pose proof (segmentSize_nonneg seg). lia.
Qed.

Lemma entrySize_le_segmentSize e seg : e ∈ seg -> entrySize e <= segmentSize seg.
Proof.
  induction seg as [|e0 seg IH]; intros Hin; [by apply elem_of_nil in Hin|].
  rewrite segmentSize_cons. pose proof (entrySize_pos e0).
  pose proof (segmentSize_nonneg seg).
  apply elem_of_cons in Hin as [->|Hin]; [lia|]. specialize (IH Hin). lia.
Qed.

Lemma writeSegments_app `{G : Gob} env backupPath timestamp num segs1 segs2 disk :
  writeSegments env backupPath timestamp num (segs1 ++ segs2) disk
  = (writeSegments env backupPath timestamp num segs1 ;;
     writeSegments env backupPath timestamp (num + Z.of_nat (length segs1)) segs2) disk.
Proof.
  revert num disk. induction segs1 as [|seg segs1 IH]; intros num disk.
  - simpl. unfold mbind, M_bind, bind, mret, M_ret, ret. by rewrite Z.add_0_r.
  - cbn [app writeSegments length]. unfold mbind, M_bind, bind.
    destruct (writeChunk env backupPath timestamp num (mkChunk seg) disk)
      as [disk1 [[]|e]]; [|done].
    rewrite IH. unfold mbind, M_bind, bind.
    by replace (num + 1 + Z.of_nat (length segs1))
      with (num + Z.of_nat (S (length segs1))) by lia.
Qed.

Lemma backupLoop_cons `{G : Gob} env backupPath timestamp entry rest chunkNum
    currentChunk currentSize :
  backupLoop env backupPath timestamp (entry :: rest) chunkNum currentChunk currentSize
  = let entrySize := int_add (Z.of_nat (length (Content entry))) 1024 in
    if (int_add currentSize entrySize >? chunkSize)%Z
       && (0 <? length (Entries currentChunk))%nat
    then
      writeChunk env backupPath timestamp chunkNum currentChunk ;;
      backupLoop env backupPath timestamp rest (int_add chunkNum 1)
        (mkChunk [entry]) (int_add 0 entrySize)
    else
      backupLoop env backupPath timestamp rest chunkNum
        (mkChunk (Entries currentChunk ++ [entry])) (int_add currentSize entrySize).
Proof. reflexivity. Qed.

Lemma hd_snoc (segs : list (list FileEntry)) last :
  segs ++ [last] = hd last segs :: tl (segs ++ [last]).
Proof. by destruct segs. Qed.

(** The loop of [createBackup], from any of its states: it writes some
    segments [segs] and ends with the records [last] still to be written. *)
Lemma backupLoop_spec `{G : Gob} env backupPath timestamp entries :
  forall num cur,
    Forall small entries ->
    0 <= num -> num + Z.of_nat (length entries) < 2 ^ 63 ->
    segmentSize cur <= 2 ^ 61 + 1024 ->
    cur = [] ∨ fits cur ->
    exists segs last,
      (forall disk,
         backupLoop env backupPath timestamp entries num (mkChunk cur)
           (segmentSize cur) disk
         = (writeSegments env backupPath timestamp num segs ;;
            mret (num + Z.of_nat (length segs), mkChunk last)) disk)
      ∧ concat segs ++ last = cur ++ entries
      ∧ Forall (fun seg => seg ≠ []) segs
      ∧ Forall fits segs
      ∧ (last = [] ∨ fits last)
      ∧ (last = [] -> cur = [] ∧ entries = [])
      ∧ greedy (segs ++ [last])
      ∧ exists tail, hd last segs = cur ++ tail.
Proof.
  induction entries as [|entry rest IH]; intros num cur Hsmall Hnum Hbound Hsize Hfits.
  - exists [], cur. simpl. rewrite app_nil_r.
    split_and!; [|done..| by exists []; rewrite app_nil_r].
    intros disk. unfold mbind, M_bind, bind, mret, M_ret, ret. simpl.
    by rewrite Z.add_0_r.
  - apply Forall_cons in Hsmall as [Hentry Hsmall]. unfold small in Hentry.
    cbn [length] in Hbound.
    pose proof (segmentSize_nonneg cur) as Hnonneg.
    assert (Hes : int_add (Z.of_nat (length (Content entry))) 1024 = entrySize entry).
    { unfold int_add, entrySize. apply wrap_int_small. lia. }
    assert (Hsum : int_add (segmentSize cur) (entrySize entry)
                   = segmentSize cur + entrySize entry).
    { unfold int_add, entrySize. apply wrap_int_small. lia. }
    assert (Hfresh : int_add 0 (entrySize entry) = segmentSize [entry]).
    { unfold int_add. rewrite wrap_int_small; [|unfold entrySize; lia].
      rewrite segmentSize_cons. simpl. lia. }
    assert (Hnext : int_add num 1 = num + 1).
    { unfold int_add. apply wrap_int_small. lia. }
    destruct ((segmentSize cur + entrySize entry >? chunkSize)%Z
              && (0 <? length cur)%nat) eqn:Hcond.
    + apply andb_prop in Hcond as [Hover Hlen].
      apply Z.gtb_lt in Hover. apply Nat.ltb_lt in Hlen.
      assert (Hcur : cur ≠ []) by (intros ->; simpl in Hlen; lia).
      destruct (IH (num + 1) [entry] Hsmall ltac:(lia) ltac:(lia))
        as (segs & last & Hrun & Hcat & Hne & Hfit & Hlast & Hempty & Hgreedy & tail & Hhd).
      { rewrite segmentSize_cons. simpl. unfold entrySize. lia. }
      { right. by left. }
      exists (cur :: segs), last. split_and!.
      * intros disk. rewrite backupLoop_cons. cbv zeta.
        rewrite Hes, Hsum. cbn [Entries].
        replace ((segmentSize cur + entrySize entry >? chunkSize)%Z
                 && (0 <? length cur)%nat) with true
          by (symmetry; apply andb_true_intro; split;
              [by apply Z.gtb_lt | by apply Nat.ltb_lt]).
        rewrite Hnext, Hfresh. cbn [writeSegments length].
        unfold mbind, M_bind, bind.
        destruct (writeChunk env backupPath timestamp num (mkChunk cur) disk)
          as [disk1 [[]|e]]; [|done].
        rewrite Hrun. unfold mbind, M_bind, bind.
        destruct (writeSegments env backupPath timestamp (num + 1) segs disk1)
          as [disk2 [[]|e]]; [|done].
        unfold mret, M_ret, ret. do 3 f_equal. lia.
      * cbn [concat]. rewrite <- app_assoc, Hcat. done.
      * by constructor.
      * constructor; [|done]. by destruct Hfits.
      * exact Hlast.
      * intros Hl. by destruct (Hempty Hl).
      * rewrite <- app_comm_cons. cbn [greedy]. split; [|exact Hgreedy].
        rewrite hd_snoc, Hhd. simpl. lia.
      * exists []. by rewrite app_nil_r.
    + assert (Hkeep : cur = [] ∨ segmentSize cur + entrySize entry <= chunkSize).
      { apply andb_false_iff in Hcond as [Hno|Hlen].
        - right. rewrite Z.gtb_ltb, Z.ltb_ge in Hno. exact Hno.
        - left. apply Nat.ltb_ge in Hlen. destruct cur; [done|simpl in Hlen; lia]. }
      destruct (IH num (cur ++ [entry]) Hsmall Hnum ltac:(lia))
        as (segs & last & Hrun & Hcat & Hne & Hfit & Hlast & Hempty & Hgreedy & tail & Hhd).
      { rewrite segmentSize_app, segmentSize_cons. simpl.
        destruct Hkeep as [->|Hle]; [simpl; unfold entrySize; lia|].
        unfold chunkSize in Hle. lia. }
      { right. destruct Hkeep as [->|Hle]; [by left|].
        right. rewrite segmentSize_app, segmentSize_cons. simpl. lia. }
      exists segs, last. split_and!; try done.
      * intros disk. rewrite backupLoop_cons. cbv zeta.
        rewrite Hes, Hsum. cbn [Entries]. rewrite Hcond.
        rewrite <- Hrun. do 2 f_equal.
        rewrite segmentSize_app, segmentSize_cons. simpl. lia.
      * rewrite Hcat, <- app_assoc. done.
      * intros Hl. destruct (Hempty Hl) as [Hnil _]. by destruct cur.
      * exists (entry :: tail). rewrite Hhd, <- app_assoc. done.
Qed.

(** C3.  [createBackup] writes the records in input order as the segments
    [segs], numbered from 0: nothing for an empty list; no segment is
    empty; their concatenation is the input; a segment of more than one
    record is within the 5 MiB limit, so a record over the limit is alone
    in its segment; and a segment is closed only when the next record
    would take it over the limit.  (Sizes are those of slices in memory,
    below 2^61 bytes each, so that the [int] additions do not wrap.) *)
Theorem createBackup_packs_greedily `{G : Gob} (env : Env) (backupPath : string)
    (entries : list FileEntry) :
  Forall small entries ->
  Z.of_nat (length entries) < 2 ^ 62 ->
  exists segs : list (list FileEntry),
    (forall disk,
       createBackup env backupPath entries disk
       = writeSegments env backupPath (Unix (now env)) 0 segs disk)
    ∧ concat segs = entries
    ∧ Forall (fun seg => seg ≠ []) segs
    ∧ Forall fits segs
    ∧ greedy segs
    ∧ (entries = [] -> segs = []
       ∧ forall disk, createBackup env backupPath entries disk = (disk, Ok tt))
    ∧ (forall seg e, seg ∈ segs -> e ∈ seg -> entrySize e > chunkSize -> seg = [e]).
Proof.
  intros Hsmall Hlen.
  destruct (backupLoop_spec env backupPath (Unix (now env)) entries 0 [] Hsmall
              ltac:(lia) ltac:(lia) ltac:(simpl; lia) ltac:(by left))
    as (segs & last & Hrun & Hcat & Hne & Hfit & Hlast & Hempty & Hgreedy & _).
  simpl in Hcat.
  assert (Hcreate : forall disk,
             createBackup env backupPath entries disk
             = (writeSegments env backupPath (Unix (now env)) 0 segs ;;
                if (0 <? length last)%nat
                then writeChunk env backupPath (Unix (now env))
                       (0 + Z.of_nat (length segs)) (mkChunk last)
                else mret tt) disk).
  { intros disk. unfold createBackup. cbv zeta. unfold mbind at 1, M_bind at 1, bind at 1.
    change (segmentSize []) with 0 in Hrun. rewrite Hrun.
    unfold mbind, M_bind, bind.
    by destruct (writeSegments env backupPath (Unix (now env)) 0 segs disk)
      as [disk1 [[]|e]]. }
  assert (Hmember : forall segs' : list (list FileEntry),
             Forall fits segs' ->
             forall seg e, seg ∈ segs' -> e ∈ seg -> entrySize e > chunkSize -> seg = [e]).
  { intros segs' Hfits' seg e Hseg He Hbig.
    rewrite Forall_forall in Hfits'. destruct (Hfits' seg Hseg) as [Hone|Hle].
    - destruct seg as [|x [|y seg]]; simpl in Hone; try lia.
      apply list_elem_of_singleton in He. by subst.
    - pose proof (entrySize_le_segmentSize e seg He). lia. }
  destruct last as [|e0 last].
  - destruct (Hempty eq_refl) as [_ ->].
    rewrite app_nil_r in Hcat.
    assert (Hnil : segs = []).
    { destruct segs as [|seg segs]; [done|].
      apply Forall_cons in Hne as [Hseg _]. simpl in Hcat.
      by apply app_eq_nil in Hcat as [-> _]. }
    subst segs. exists []. split_and!.
    + intros disk. by rewrite Hcreate.
    + done.
    + done.
    + done.
    + done.
    + intros _. split; [done|]. intros disk. by rewrite Hcreate.
    + intros seg e Hseg. by apply elem_of_nil in Hseg.
  - exists (segs ++ [e0 :: last]). split_and!.
    + intros disk. rewrite Hcreate, writeSegments_app.
      unfold mbind, M_bind, bind. cbn [length Nat.ltb Nat.leb writeSegments].
      destruct (writeSegments env backupPath (Unix (now env)) 0 segs disk)
        as [disk1 [[]|e]]; [|done].
      unfold mbind, M_bind, bind.
      destruct (writeChunk env backupPath (Unix (now env))
                  (0 + Z.of_nat (length segs)) (mkChunk (e0 :: last)) disk1)
        as [disk2 [[]|e]]; done.
    + rewrite concat_app. simpl. by rewrite app_nil_r.
    + apply Forall_app. split; [done|]. by repeat constructor.
    + apply Forall_app. split; [done|]. constructor; [|done]. by destruct Hlast.
    + exact Hgreedy.
    + intros Hnil. rewrite Hnil in Hcat. by apply app_eq_nil in Hcat as [_ ?].
    + apply Hmember. apply Forall_app. split; [done|].
      constructor; [|done]. by destruct Hlast.
Qed.

(** Two small records go into one segment, [chunk_1704110400_000.dat]. *)
Lemma createBackup_packs_greedily_witness :
  exists segs : list (list FileEntry),
    concat segs = [Recreated.original; Corrupted.valid]
    ∧ (@createBackup wireGob quietEnv "backup"
         [Recreated.original; Corrupted.valid] ∅).2 = Ok tt
    ∧ fst <$> map_to_list
        (@createBackup wireGob quietEnv "backup"
           [Recreated.original; Corrupted.valid] ∅).1
      = ["backup/chunk_1704110400_000.dat"].
Proof.
  destruct (@createBackup_packs_greedily wireGob quietEnv "backup"
              [Recreated.original; Corrupted.valid])
    as (segs & _ & Hcat & _).
  - repeat constructor; unfold small; vm_compute; reflexivity.
  - vm_compute. reflexivity.
  - exists segs. split; [exact Hcat|]. split; vm_compute; reflexivity.
Defined.

(** ** Segment file names and their order *)

Lemma compare_append_l (p a b : string) :
  ((p ++ a) ?= (p ++ b))%string = (a ?= b)%string.
Proof.
  induction p as [|c p IH]; [done|].
  simpl. unfold Ascii.compare. by rewrite N.compare_refl.
Qed.

Lemma N_compare_add_l (p a b : N) : (p + a ?= p + b)%N = (a ?= b)%N.
Proof.
  destruct (N.compare_spec a b) as [->|Hlt|Hgt].
  - apply N.compare_refl.
  - apply N.compare_lt_iff. lia.
  - apply N.compare_gt_iff. lia.
Qed.

Lemma compare_digitChar a b :
  (a < 10)%N -> (b < 10)%N ->
  Ascii.compare (digitChar a) (digitChar b) = (a ?= b)%N.
Proof.
  intros Ha Hb. unfold Ascii.compare, digitChar.
  rewrite !N_ascii_embedding by lia.
  apply N_compare_add_l.
Qed.

Lemma compare_positional (B dn dm rn rm : N) :
  (rn < B)%N -> (rm < B)%N ->
  (rn + B * dn ?= rm + B * dm)%N
  = match (dn ?= dm)%N with Eq => (rn ?= rm)%N | c => c end.
Proof.
  intros Hrn Hrm.
  destruct (N.compare_spec dn dm) as [->|Hlt|Hgt].
  - rewrite (N.add_comm rn), (N.add_comm rm). apply N_compare_add_l.
  - apply N.compare_lt_iff. nia.
  - apply N.compare_gt_iff. nia.
Qed.

Lemma decimal_S w n :
  decimal (S w) n
  = String (digitChar ((n / 10 ^ N.of_nat w) mod 10)) (decimal w n).
Proof. reflexivity. Qed.

Lemma compare_String c1 c2 (s1 s2 : string) :
  (String c1 s1 ?= String c2 s2)%string
  = match Ascii.compare c1 c2 with Eq => (s1 ?= s2)%string | c => c end.
Proof. reflexivity. Qed.

Lemma append_String c (s1 s2 : string) :
  (String c s1 ++ s2)%string = String c (s1 ++ s2)%string.
Proof. reflexivity. Qed.

(** Numbers written with the same number of digits compare as their
    digit strings do, whatever follows the digits. *)
Lemma compare_decimal w n m (s t : string) :
  ((decimal w n ++ s) ?= (decimal w m ++ t))%string
  = match (n mod 10 ^ N.of_nat w ?= m mod 10 ^ N.of_nat w)%N with
    | Eq => (s ?= t)%string
    | c => c
    end.
Proof.
  induction w as [|w IH].
  - simpl. by rewrite !N.mod_1_r.
  - rewrite !decimal_S, !append_String, compare_String.
    assert (Hpow : (10 ^ N.of_nat (S w) = 10 ^ N.of_nat w * 10)%N).
    { rewrite Nat2N.inj_succ, N.pow_succ_r'. apply N.mul_comm. }
    assert (Hpos : (10 ^ N.of_nat w ≠ 0)%N) by (apply N.pow_nonzero; lia).
    rewrite Hpow, !N.Div0.mod_mul_r.
    pose proof (N.mod_lt n _ Hpos) as Hrn. pose proof (N.mod_lt m _ Hpos) as Hrm.
    pose proof (N.mod_lt (n / 10 ^ N.of_nat w) 10 ltac:(lia)) as Hdn.
    pose proof (N.mod_lt (m / 10 ^ N.of_nat w) 10 ltac:(lia)) as Hdm.
    rewrite compare_digitChar, compare_positional, IH by done.
    by destruct (N.compare ((n / 10 ^ N.of_nat w) mod 10)
                           ((m / 10 ^ N.of_nat w) mod 10)).
Qed.

Lemma length_decimal w n : String.length (decimal w n) = w.
Proof. induction w as [|w IH]; [done|]. simpl. by rewrite IH. Qed.

Lemma ndigits_fuel_bound fuel n :
  (n < 10 ^ N.of_nat (S fuel))%N -> (n < 10 ^ N.of_nat (ndigits_fuel fuel n))%N.
Proof.
  revert n. induction fuel as [|fuel IH]; intros n Hn; [exact Hn|].
  cbn [ndigits_fuel]. destruct (n <? 10)%N eqn:Hlt.
  - apply N.ltb_lt in Hlt. exact Hlt.
  - rewrite Nat2N.inj_succ, N.pow_succ_r' in Hn |- *.
    assert (Hq : (n / 10 < 10 ^ N.of_nat (S fuel))%N)
      by (apply N.Div0.div_lt_upper_bound; exact Hn).
    specialize (IH _ Hq).
    pose proof (N.div_mod n 10 ltac:(done)) as Hdm.
    pose proof (N.mod_lt n 10 ltac:(done)) as Hmod.
    set (q := (n / 10)%N) in *. set (r := (n mod 10)%N) in *. clearbody q r.
    set (P := (10 ^ N.of_nat (ndigits_fuel fuel q))%N) in *. clearbody P. lia.
Qed.

Lemma ndigits_bound n : (n < 10 ^ N.of_nat (ndigits n))%N.
Proof.
  unfold ndigits. apply ndigits_fuel_bound.
  rewrite Nat2N.inj_succ, N2Nat.id.
  destruct (N.eq_dec n 0%N) as [->|Hn]; [done|].
  eapply N.lt_le_trans.
  - apply N.log2_spec. lia.
  - apply N.pow_le_mono_l. lia.
Qed.

Lemma ndigits_fuel_le fuel n k :
  (n < 10 ^ N.of_nat (S k))%N -> (ndigits_fuel fuel n <= S k)%nat.
Proof.
  revert n k. induction fuel as [|fuel IH]; intros n k Hn; [simpl; lia|].
  cbn [ndigits_fuel]. destruct (n <? 10)%N eqn:Hlt; [lia|].
  apply N.ltb_ge in Hlt. destruct k as [|k].
  - assert (H1 : (10 ^ N.of_nat 1 = 10)%N) by reflexivity. rewrite H1 in Hn. lia.
  - apply le_n_S. apply IH.
    apply N.Div0.div_lt_upper_bound.
    by rewrite Nat2N.inj_succ, N.pow_succ_r' in Hn.
Qed.

Lemma Sprintf_d_nonneg z :
  0 <= z -> Sprintf_d z = decimal (ndigits (Z.abs_N z)) (Z.abs_N z).
Proof.
  intros Hz. unfold Sprintf_d.
  by replace (z <? 0)%Z with false by (symmetry; apply Z.ltb_ge; lia).
Qed.

Lemma Sprintf_03d_small z :
  0 <= z < 1000 -> Sprintf_03d z = decimal 3 (Z.abs_N z).
Proof.
  intros Hz. unfold Sprintf_03d.
  replace (z <? 0)%Z with false by (symmetry; apply Z.ltb_ge; lia).
  cbv zeta. f_equal.
  pose proof (ndigits_fuel_le (N.to_nat (N.log2 (Z.abs_N z))) (Z.abs_N z) 2) as Hle.
  fold (ndigits (Z.abs_N z)) in Hle.
  assert (H3 : (10 ^ N.of_nat 3 = 1000)%N) by reflexivity.
  rewrite H3 in Hle. specialize (Hle ltac:(lia)). lia.
Qed.

Lemma abs_N_compare a b :
  0 <= a -> 0 <= b -> (Z.abs_N a ?= Z.abs_N b)%N = (a ?= b)%Z.
Proof.
  intros Ha Hb. rewrite !Zabs2N.abs_N_nonneg by done. by apply Z2N.inj_compare.
Qed.

(** For timestamps printed at the same width and sequence numbers below
    1000, the paths of two segments compare as their keys do. *)
Lemma segmentPath_compare backupPath (k1 k2 : Z * Z) :
  0 <= k1.1 -> 0 <= k2.1 ->
  String.length (Sprintf_d k1.1) = String.length (Sprintf_d k2.1) ->
  0 <= k1.2 < 1000 -> 0 <= k2.2 < 1000 ->
  (segmentPath backupPath k1 ?= segmentPath backupPath k2)%string
  = keyCompare k1 k2.
Proof.
  destruct k1 as [t1 s1], k2 as [t2 s2]. simpl. intros Ht1 Ht2 Hwidth Hs1 Hs2.
  unfold segmentPath, Join, chunkName, keyCompare. simpl fst. simpl snd.
  rewrite !compare_append_l.
  rewrite !Sprintf_d_nonneg, !length_decimal in Hwidth by done.
  rewrite !Sprintf_d_nonneg, Hwidth by done.
  rewrite compare_decimal.
  rewrite (N.mod_small (Z.abs_N t2)) by apply ndigits_bound.
  rewrite (N.mod_small (Z.abs_N t1)) by (rewrite <- Hwidth; apply ndigits_bound).
  rewrite abs_N_compare by done.
  destruct (t1 ?= t2)%Z; [|done..].
  rewrite compare_append_l, !Sprintf_03d_small by done.
  rewrite compare_decimal.
  assert (H3 : (10 ^ N.of_nat 3 = 1000)%N) by reflexivity. rewrite H3.
  rewrite !N.mod_small by lia.
  rewrite abs_N_compare by lia.
  by destruct (s1 ?= s2)%Z.
Qed.

Section SortBy.
Context {A B : Type} (f : A -> B) (leA : A -> A -> bool) (leB : B -> B -> bool).

Lemma elem_of_insertBy (x y : A) (l : list A) :
  y ∈ insertBy leA x l <-> y = x ∨ y ∈ l.
Proof.
  induction l as [|z l IH]; simpl.
  - by rewrite list_elem_of_singleton, elem_of_nil; intuition.
  - destruct (leA x z); rewrite !elem_of_cons; [done|]. rewrite IH. tauto.
Qed.

Lemma sortBy_cons {C} (le : C -> C -> bool) (x : C) (l : list C) :
  sortBy le (x :: l) = insertBy le x (sortBy le l).
Proof. reflexivity. Qed.

Lemma elem_of_sortBy (y : A) (l : list A) : y ∈ sortBy leA l <-> y ∈ l.
Proof.
  induction l as [|x l IH]; [done|].
  rewrite sortBy_cons, elem_of_insertBy, IH, elem_of_cons. done.
Qed.

Lemma fmap_insertBy (x : A) (l : list A) :
  (forall y, y ∈ l -> leB (f x) (f y) = leA x y) ->
  f <$> insertBy leA x l = insertBy leB (f x) (f <$> l).
Proof.
  induction l as [|z l IH]; intros Hle; [done|].
  cbn [insertBy fmap list_fmap]. rewrite (Hle z) by apply list_elem_of_here.
  destruct (leA x z); [done|].
  cbn [fmap list_fmap]. f_equal. apply IH.
  intros y Hy. apply Hle. by apply list_elem_of_further.
Qed.

(** Sorting commutes with a map that preserves the order on the elements
    at hand. *)
Lemma fmap_sortBy (l : list A) :
  (forall x y, x ∈ l -> y ∈ l -> leB (f x) (f y) = leA x y) ->
  f <$> sortBy leA l = sortBy leB (f <$> l).
Proof.
  induction l as [|x l IH]; intros Hle; [done|].
  rewrite fmap_cons, !sortBy_cons, <- IH.
  - apply fmap_insertBy. intros y Hy.
    apply (proj1 (elem_of_sortBy y l)) in Hy.
    apply Hle; [apply list_elem_of_here | by apply list_elem_of_further].
  - intros y z Hy Hz. apply Hle; by apply list_elem_of_further.
Qed.
End SortBy.

(** C2 (as amended).  For segments whose timestamps are non-negative and
    printed at the same number of digits, and whose sequence numbers are
    below 1000, sorting the file names as strings is sorting the segments
    by (timestamp, sequence number): the names compare as the keys do. *)
Theorem sorted_names_follow_keys (backupPath : string) (keys : list (Z * Z)) :
  Forall (fun k => 0 <= k.1 ∧ 0 <= k.2 < 1000) keys ->
  (forall k k', k ∈ keys -> k' ∈ keys ->
     String.length (Sprintf_d k.1) = String.length (Sprintf_d k'.1)) ->
  sort_Strings (segmentPath backupPath <$> keys)
  = segmentPath backupPath <$> sortKeys keys
  ∧ forall k k', k ∈ keys -> k' ∈ keys ->
      (segmentPath backupPath k ?= segmentPath backupPath k')%string
      = keyCompare k k'.
Proof.
  intros Hrange Hwidth. rewrite Forall_forall in Hrange.
  assert (Hcmp : forall k k', k ∈ keys -> k' ∈ keys ->
            (segmentPath backupPath k ?= segmentPath backupPath k')%string
            = keyCompare k k').
  { intros k k' Hk Hk'. destruct (Hrange k Hk) as [? ?], (Hrange k' Hk') as [? ?].
    apply segmentPath_compare; auto. }
  split; [|exact Hcmp].
  unfold sort_Strings, sortKeys. symmetry. apply fmap_sortBy.
  intros k k' Hk Hk'. unfold String.leb, keyLeb. by rewrite Hcmp.
Qed.

Lemma sorted_names_follow_keys_witness :
  sort_Strings (segmentPath "backup" <$> [(3000, 0); (1000, 1); (2000, 0); (1000, 0)])
  = ["backup/chunk_1000_000.dat"; "backup/chunk_1000_001.dat";
     "backup/chunk_2000_000.dat"; "backup/chunk_3000_000.dat"]%string.
Proof.
  refine (eq_trans
            (proj1 (sorted_names_follow_keys "backup"
                      [(3000, 0); (1000, 1); (2000, 0); (1000, 0)] _ _)) _).
  - repeat (constructor; [simpl; lia|]). constructor.
  - intros k k' Hk Hk'.
    repeat (apply elem_of_cons in Hk as [->|Hk]);
      try (by apply elem_of_nil in Hk);
      repeat (apply elem_of_cons in Hk' as [->|Hk']);
      try (by apply elem_of_nil in Hk'); reflexivity.
  - vm_compute. reflexivity.
Defined.

(** C2 as stated fails: a 1-digit timestamp sorts after a 2-digit one,
    and within one timestamp segment 1000 sorts before segment 999. *)
Lemma sorted_names_counterexample :
  sort_Strings (segmentPath "backup" <$> [(9, 0); (10, 0)])
    = ["backup/chunk_10_000.dat"; "backup/chunk_9_000.dat"]%string
  ∧ sortKeys [(9, 0); (10, 0)] = [(9, 0); (10, 0)]
  ∧ sort_Strings (segmentPath "backup" <$> [(9, 0); (10, 0)])
    ≠ segmentPath "backup" <$> sortKeys [(9, 0); (10, 0)]
  ∧ sort_Strings (segmentPath "backup" <$> [(1, 999); (1, 1000)])
    ≠ segmentPath "backup" <$> sortKeys [(1, 999); (1, 1000)].
Proof.
  split; [vm_compute; reflexivity|]. split; [vm_compute; reflexivity|].
  split; vm_compute; discriminate.
Qed.

(** * Further properties *)

(** ** What the Differ reports *)

Lemma changed_spec (snapshot : gmap string string) r h :
  match snapshot !! r with
  | Some oldHash => negb (oldHash =? h)%string
  | None => true
  end = if decide (snapshot !! r = Some h) then false else true.
Proof.
  destruct (snapshot !! r) as [old|]; [|by rewrite decide_False].
  destruct (String.eqb_spec old h) as [->|Hne]; simpl.
  - by rewrite decide_True.
  - rewrite decide_False; [done|]. by intros [= ?].
Qed.

Lemma changedRecords_cons env snapshot ev walk :
  changedRecords env snapshot (ev :: walk) =
  match ev with
  | WalkFile f =>
      match wRel f, hashFile env f, wInfo f, wRead f with
      | Ok relPath, Ok hash, Ok info, Ok content =>
          if decide (snapshot !! relPath = Some hash)
          then changedRecords env snapshot walk
          else changeRecord relPath info content :: changedRecords env snapshot walk
      | _, _, _, _ => changedRecords env snapshot walk
      end
  | _ => changedRecords env snapshot walk
  end.
Proof.
  unfold changedRecords. destruct ev as [e|  |f]; try reflexivity.
  simpl. destruct (wRel f) as [r|]; [|reflexivity].
  destruct (hashFile env f) as [h|]; [|reflexivity].
  destruct (wInfo f); [|reflexivity]. destruct (wRead f); [|reflexivity].
  by destruct (decide (snapshot !! r = Some h)).
Qed.

(** A walk that completes has appended to [changes] the records of the
    changed files, in the order of the walk. *)
Lemma WalkDir_changes env snapshot walk current changes current' changes' :
  WalkDir (visit env snapshot) walk (current, changes) = Ok (current', changes') ->
  changes' = changes ++ changedRecords env snapshot walk.
Proof.
  revert current changes.
  induction walk as [|ev walk IH]; intros current changes Hrun.
  - simpl in Hrun. injection Hrun as _ <-. by rewrite app_nil_r.
  - cbn [WalkDir] in Hrun. unfold mbind, result_bind in Hrun.
    destruct (visit env snapshot (current, changes) ev) as [[cur1 ch1]|e] eqn:Hev;
      [|done].
    apply IH in Hrun. subst changes'. rewrite changedRecords_cons.
    destruct ev as [e|  |f]; simpl in Hev.
    + done.
    + by injection Hev as <- <-.
    + unfold mbind, result_bind in Hev.
      destruct (wRel f) as [r|]; [|done].
      destruct (hashFile env f) as [h|]; [|done].
      rewrite changed_spec in Hev.
      destruct (decide (snapshot !! r = Some h)).
      * injection Hev as _ <-. by destruct (wInfo f), (wRead f).
      * destruct (wInfo f) as [info|]; [|done].
        destruct (wRead f) as [content|]; [|done].
        injection Hev as _ <-. by rewrite <- app_assoc.
Qed.

Lemma fold_record_None (l : list (string * string)) (m0 : gmap string string) r :
  fold_left record l m0 !! r = None <-> (r ∉ (l.*1)) ∧ m0 !! r = None.
Proof.
  revert m0. induction l as [|[k v] l IH]; intros m0; simpl.
  - split; [intros ?; split; [apply not_elem_of_nil|done] | by intros [_ ?]].
  - rewrite IH, not_elem_of_cons. unfold record. simpl.
    destruct (decide (k = r)) as [->|Hne].
    + rewrite lookup_insert_eq. split; [by intros [_ ?] | by intros [[? _] _]].
    + rewrite lookup_insert_ne by done. split.
      * intros [? ?]. split; [split|]; [congruence|done..].
      * intros [[_ ?] ?]. done.
Qed.

Lemma elem_of_changedRecords env snapshot walk e :
  e ∈ changedRecords env snapshot walk <->
  exists f r h info content,
    WalkFile f ∈ walk ∧ wRel f = Ok r ∧ hashFile env f = Ok h
    ∧ snapshot !! r ≠ Some h ∧ wInfo f = Ok info ∧ wRead f = Ok content
    ∧ e = changeRecord r info content.
Proof.
  unfold changedRecords. rewrite list_elem_of_omap. split.
  - intros (ev & Hev & Hsome). destruct ev as [?|  |f]; try done.
    destruct (wRel f) as [r|] eqn:Hr; [|done].
    destruct (hashFile env f) as [h|] eqn:Hh; [|done].
    destruct (wInfo f) as [info|] eqn:Hi; [|done].
    destruct (wRead f) as [content|] eqn:Hc; [|done].
    destruct (decide (snapshot !! r = Some h)); [done|].
    injection Hsome as <-. exists f, r, h, info, content. by rewrite Hr, Hh, Hi, Hc.
  - intros (f & r & h & info & content & Hf & Hr & Hh & Hne & Hi & Hc & ->).
    exists (WalkFile f). split; [done|].
    rewrite Hr, Hh, Hi, Hc. by rewrite decide_False.
Qed.

Lemma changedRecords_sublist env snapshot walk :
  sublist (Path <$> changedRecords env snapshot walk) ((present env walk).*1).
Proof.
  induction walk as [|ev walk IH]; [done|].
  rewrite changedRecords_cons, present_cons.
  destruct ev as [e|  |f]; [done..|].
  destruct (wRel f) as [r|]; [|done].
  destruct (hashFile env f) as [h|]; [|done].
  destruct (wInfo f); [|by apply sublist_cons].
  destruct (wRead f); [|by apply sublist_cons].
  destruct (decide (snapshot !! r = Some h)).
  - by apply sublist_cons.
  - rewrite !fmap_cons. simpl. by apply sublist_skip.
Qed.

(** The change list of a successful call, as a list. *)
Lemma detectChanges_changes env walk snapshot changes snapshot' :
  detectChanges env walk snapshot = (changes, None, snapshot') ->
  changes = changedRecords env snapshot walk
            ++ deletions snapshot (fold_left record (present env walk) ∅)
  ∧ snapshot' = fold_left record (present env walk) ∅.
Proof.
  unfold detectChanges.
  destruct (WalkDir (visit env snapshot) walk (∅, [])) as [[current ch]|e] eqn:Hrun;
    [|done].
  intros [= <- <-]. rewrite updateSnapshot_current.
  pose proof (WalkDir_current _ _ _ _ _ _ _ Hrun) as ->.
  pose proof (WalkDir_changes _ _ _ _ _ _ _ Hrun) as ->. done.
Qed.

Lemma elem_of_deletions snapshot current e :
  e ∈ deletions snapshot current <->
  is_Some (snapshot !! Path e) ∧ current !! Path e = None ∧ e = tombstone (Path e).
Proof.
  unfold deletions. rewrite list_elem_of_fmap. split.
  - intros (p & -> & Hp). apply list_elem_of_filter in Hp as [Hnone Hp].
    apply list_elem_of_fmap in Hp as ([p' v] & -> & Hkv).
    apply elem_of_map_to_list in Hkv. simpl in *. eauto.
  - intros ([v Hv] & Hnone & He). exists (Path e). split; [done|].
    apply list_elem_of_filter. split; [done|].
    apply list_elem_of_fmap. exists (Path e, v). split; [done|].
    by apply elem_of_map_to_list.
Qed.

(** X1.  What a successful call of the Differ reports, record by record:
    a record with [Deleted = false] for exactly the files of the walk
    whose path is not in the snapshot or whose fingerprint differs from
    the one stored, carrying the mode, modification time and size of the
    file and the bytes read from it; and a tombstone, with every other
    field zero, for exactly the paths of the snapshot that the walk did
    not present. *)
Theorem detectChanges_classifies (env : Env) (walk : list WalkEvent)
    (snapshot snapshot' : gmap string string) (changes : list FileEntry)
    (e : FileEntry) :
  detectChanges env walk snapshot = (changes, None, snapshot') ->
  e ∈ changes <->
  (exists f r h info content,
     WalkFile f ∈ walk ∧ wRel f = Ok r ∧ hashFile env f = Ok h
     ∧ snapshot !! r ≠ Some h ∧ wInfo f = Ok info ∧ wRead f = Ok content
     ∧ e = changeRecord r info content)
  ∨ (is_Some (snapshot !! Path e) ∧ (Path e ∉ ((present env walk).*1))
     ∧ e = tombstone (Path e)).
Proof.
  intros Hrun. apply detectChanges_changes in Hrun as [-> _].
  rewrite elem_of_app, elem_of_changedRecords, elem_of_deletions, fold_record_None.
  rewrite lookup_empty. split.
  - intros [?|(? & [? _] & ?)]; [by left | by right].
  - intros [?|(? & ? & ?)]; [by left | by right].
Qed.

Lemma detectChanges_classifies_witness :
  tombstone "gone.txt" ∈ (detectChanges quietEnv Tree.walk Tree.snapshot).1.1
  ∧ changeRecord "sub/b.txt" {| iMode := 420; iModTime := 5; iSize := 1 |}
      (list_byte_of_string "y")
    ∈ (detectChanges quietEnv Tree.walk Tree.snapshot).1.1.
Proof.
  assert (Hrun : detectChanges quietEnv Tree.walk Tree.snapshot
                 = ((detectChanges quietEnv Tree.walk Tree.snapshot).1.1, None,
                    (detectChanges quietEnv Tree.walk Tree.snapshot).2))
    by (vm_compute; reflexivity).
  split.
  - apply (proj2 (detectChanges_classifies _ _ _ _ _ _ Hrun)). right.
    split; [by eexists; vm_compute|]. split; [|reflexivity].
    vm_compute. intros Hin.
    repeat (apply elem_of_cons in Hin as [Hin|Hin]; [discriminate Hin|]).
    by apply elem_of_nil in Hin.
  - apply (proj2 (detectChanges_classifies _ _ _ _ _ _ Hrun)). left.
    eexists _, "sub/b.txt"%string, "y"%string, _, _.
    split; [apply list_elem_of_further, list_elem_of_further,
            list_elem_of_further, list_elem_of_here|].
    split; [reflexivity|]. split; [reflexivity|].
    split; [vm_compute; discriminate|]. split; [reflexivity|].
    split; reflexivity.
Defined.

Lemma Path_tombstones (paths : list string) : Path <$> (tombstone <$> paths) = paths.
Proof. induction paths as [|p paths IH]; [done|]. rewrite !fmap_cons, IH. done. Qed.

Lemma changes_NoDup env walk snapshot snapshot' changes :
  NoDup ((present env walk).*1) ->
  detectChanges env walk snapshot = (changes, None, snapshot') ->
  NoDup (Path <$> changes).
Proof.
  intros Hnd Hrun. apply detectChanges_changes in Hrun as [-> _].
  rewrite fmap_app. apply NoDup_app. split_and!.
  - exact (sublist_NoDup _ _ Hnd (changedRecords_sublist _ _ _)).
  - intros p Hp Hdel.
    apply list_elem_of_fmap in Hdel as (e & -> & He).
    apply elem_of_deletions in He as (_ & Hnone & _).
    apply fold_record_None in Hnone as [Hout _]. apply Hout.
    exact (elem_of_sublist _ _ _ Hp (changedRecords_sublist _ _ _)).
  - unfold deletions. rewrite Path_tombstones.
    apply NoDup_filter, NoDup_fst_map_to_list.
Qed.

(** X2.  A successful call reports each path at most once, provided the
    walk presented each relative path once. *)
Theorem detectChanges_paths_distinct (env : Env) (walk : list WalkEvent)
    (snapshot snapshot' : gmap string string) (changes : list FileEntry) :
  NoDup ((present env walk).*1) ->
  detectChanges env walk snapshot = (changes, None, snapshot') ->
  NoDup (Path <$> changes).
Proof. apply changes_NoDup. Qed.

Lemma detectChanges_paths_distinct_witness :
  NoDup (Path <$> (detectChanges quietEnv Tree.walk Tree.snapshot).1.1).
Proof.
  apply (detectChanges_paths_distinct quietEnv Tree.walk Tree.snapshot
           (detectChanges quietEnv Tree.walk Tree.snapshot).2).
  - vm_compute. apply NoDup_cons. split.
    + intros Hin. apply list_elem_of_singleton in Hin. discriminate Hin.
    + apply NoDup_singleton.
  - vm_compute. reflexivity.
Defined.

(** ** The watch loop *)

Lemma WalkDir_ext {S} (fn1 fn2 : S -> WalkEvent -> result S) walk s :
  (forall s ev, fn1 s ev = fn2 s ev) -> WalkDir fn1 walk s = WalkDir fn2 walk s.
Proof.
  intros Hext. revert s. induction walk as [|ev walk IH]; intros s; [done|].
  cbn [WalkDir]. rewrite Hext. unfold mbind, result_bind.
  destruct (fn2 s ev); [apply IH|done].
Qed.

Lemma detectChanges_digest env1 env2 walk snapshot :
  sha256Hex env2 = sha256Hex env1 ->
  detectChanges env2 walk snapshot = detectChanges env1 walk snapshot.
Proof.
  intros Hsha. unfold detectChanges.
  rewrite (WalkDir_ext (visit env2 snapshot) (visit env1 snapshot)); [done|].
  intros [current changes] ev. unfold visit, hashFile. by rewrite Hsha.
Qed.

(** Once a call has succeeded, a call on the same tree reports nothing
    and keeps the snapshot. *)
Lemma detectChanges_settled env walk snapshot changes snapshot' :
  NoDup ((present env walk).*1) ->
  detectChanges env walk snapshot = (changes, None, snapshot') ->
  detectChanges env walk snapshot' = ([], None, snapshot').
Proof.
  intros Hnd. unfold detectChanges.
  destruct (WalkDir (visit env snapshot) walk (∅, [])) as [[current ch]|e] eqn:Hrun;
    [|done].
  intros [= _ <-]. rewrite updateSnapshot_current.
  pose proof (WalkDir_current _ _ _ _ _ _ _ Hrun) as Hcur.
  rewrite (WalkDir_unchanged env snapshot current walk _ _ ∅ [] Hrun).
  - by rewrite <- Hcur, deletions_same, updateSnapshot_current.
  - intros r h Hin. rewrite Hcur. apply (fold_record_lookup _ _ _ _ Hnd). by left.
Qed.

Lemma watchPass_unfold `{G : Gob} env backupPath walk snapshot disk :
  watchPass env backupPath walk snapshot disk =
  (if (0 <? length (detectChanges env walk snapshot).1.1)%nat
   then (createBackup env backupPath (detectChanges env walk snapshot).1.1 disk).1
   else disk,
   Ok (detectChanges env walk snapshot).2).
Proof.
  unfold watchPass. destruct (detectChanges env walk snapshot) as [[changes err] s].
  simpl. unfold mbind, M_bind, bind, logged, mret, M_ret, ret.
  by destruct (0 <? length changes)%nat.
Qed.

Lemma watchLoop_succeeds `{G : Gob} backupPath passes snapshot disk :
  exists s, (watchLoop backupPath passes snapshot disk).2 = Ok s.
Proof.
  revert snapshot disk.
  induction passes as [|[env walk] passes IH]; intros snapshot disk.
  - by exists snapshot.
  - cbn [watchLoop]. unfold mbind, M_bind, bind. rewrite watchPass_unfold. apply IH.
Qed.

(** X3.  [watch] returns an error only when it cannot create the backup
    directory, and then before anything is scanned or written; once the
    loop has started, no failure of a scan or of a backup ends it. *)
Theorem watch_fails_only_at_start `{G : Gob} (env : Env) (backupPath : string)
    (passes : list (Env * list WalkEvent)) (disk : gmap string File) :
  (mkdirAll_fails env backupPath = true ->
   watch env backupPath passes disk = (disk, Err (ErrIO backupPath)))
  ∧ (mkdirAll_fails env backupPath = false ->
     exists snapshot, (watch env backupPath passes disk).2 = Ok snapshot).
Proof.
  unfold watch, mbind, M_bind, bind, MkdirAll. split; intros ->; [done|].
  apply watchLoop_succeeds.
Qed.

Lemma watch_fails_only_at_start_witness :
  (@watch wireGob readOnlyTargetEnv "target" [(quietEnv, Tree.walk)] ∅).2
    = Err (ErrIO "target")
  ∧ exists snapshot,
      (@watch wireGob quietEnv "backup"
         [(fullDiskEnv, Tree.walk); (quietEnv, Tree.brokenWalk)] ∅).2 = Ok snapshot.
Proof.
  split.
  - rewrite (proj1 (@watch_fails_only_at_start wireGob readOnlyTargetEnv "target"
                      [(quietEnv, Tree.walk)] ∅) eq_refl).
    reflexivity.
  - apply (proj2 (@watch_fails_only_at_start wireGob quietEnv "backup"
                    [(fullDiskEnv, Tree.walk); (quietEnv, Tree.brokenWalk)] ∅)).
    reflexivity.
Defined.

Lemma writeChunk_refused `{G : Gob} env backupPath timestamp num chunk disk :
  (forall p, create_fails env p = true) ->
  writeChunk env backupPath timestamp num chunk disk
  = (disk, Err (ErrIO (Join backupPath (chunkName timestamp num)))).
Proof. intros Hno. unfold writeChunk. by rewrite Hno. Qed.

Lemma backupLoop_refused `{G : Gob} env backupPath timestamp entries num cur size disk :
  (forall p, create_fails env p = true) ->
  (backupLoop env backupPath timestamp entries num cur size disk).1 = disk.
Proof.
  intros Hno. revert num cur size.
  induction entries as [|entry rest IH]; intros num cur size; [done|].
  rewrite backupLoop_cons. cbv zeta.
  destruct (_ && _); [|apply IH].
  unfold mbind, M_bind, bind. by rewrite writeChunk_refused.
Qed.

Lemma createBackup_refused `{G : Gob} env backupPath entries disk :
  (forall p, create_fails env p = true) ->
  (createBackup env backupPath entries disk).1 = disk.
Proof.
  intros Hno. unfold createBackup. cbv zeta. unfold mbind, M_bind, bind.
  pose proof (backupLoop_refused env backupPath (Unix (now env)) entries 0
                (mkChunk []) 0 disk Hno) as Hloop.
  destruct (backupLoop env backupPath (Unix (now env)) entries 0 (mkChunk []) 0 disk)
    as [disk1 [[num cur]|e]]; simpl in Hloop; subst disk1; [|done].
  destruct (0 <? length (Entries cur))%nat; [|done].
  by rewrite writeChunk_refused.
Qed.

(** X4.  A pass whose scan fails writes nothing and keeps the snapshot.
    After a pass whose scan succeeded, a pass over the same tree writes
    nothing: the snapshot was advanced by the scan, whether or not the
    backup that followed was written.  So the changes found while the
    backup location refused every file are in no segment after either
    pass. *)
Theorem watchPass_unchanged_tree `{G : Gob} (env1 env2 : Env) (backupPath : string)
    (walk : list WalkEvent) (snapshot : gmap string string)
    (disk : gmap string File) :
  (forall changes err snapshot',
     detectChanges env1 walk snapshot = (changes, Some err, snapshot') ->
     watchPass env1 backupPath walk snapshot disk = (disk, Ok snapshot))
  ∧ (forall changes snapshot',
       NoDup ((present env1 walk).*1) ->
       sha256Hex env2 = sha256Hex env1 ->
       detectChanges env1 walk snapshot = (changes, None, snapshot') ->
       watchLoop backupPath [(env1, walk); (env2, walk)] snapshot disk
       = ((watchPass env1 backupPath walk snapshot disk).1, Ok snapshot')
       ∧ ((forall p, create_fails env1 p = true) ->
          watchLoop backupPath [(env1, walk); (env2, walk)] snapshot disk
          = (disk, Ok snapshot'))).
Proof.
  split.
  - intros changes err snapshot' Hscan. rewrite watchPass_unfold, Hscan. simpl.
    unfold detectChanges in Hscan.
    destruct (WalkDir _ walk _) as [[current ch]|e]; [done|].
    by injection Hscan as <- _ <-.
  - intros changes snapshot' Hnd Hsha Hscan.
    assert (Hloop : watchLoop backupPath [(env1, walk); (env2, walk)] snapshot disk
                    = ((watchPass env1 backupPath walk snapshot disk).1, Ok snapshot')).
    { cbn [watchLoop]. unfold mbind, M_bind, bind.
      rewrite (watchPass_unfold env1), Hscan. cbn [fst snd].
      rewrite (watchPass_unfold env2), (detectChanges_digest env1 env2) by done.
      rewrite (detectChanges_settled env1 walk snapshot changes snapshot') by done.
      reflexivity. }
    split; [exact Hloop|].
    intros Hno. rewrite Hloop, watchPass_unfold, Hscan. cbn [fst snd].
    destruct (0 <? length changes)%nat; [|done].
    by rewrite createBackup_refused.
Qed.

Lemma watchPass_unchanged_tree_witness :
  @watchLoop wireGob "backup" [(fullDiskEnv, Tree.walk); (quietEnv, Tree.walk)]
    Tree.snapshot ∅
  = (∅, Ok (detectChanges quietEnv Tree.walk Tree.snapshot).2).
Proof.
  refine (proj2 (proj2 (@watchPass_unchanged_tree wireGob fullDiskEnv quietEnv "backup"
            Tree.walk Tree.snapshot ∅)
            (detectChanges quietEnv Tree.walk Tree.snapshot).1.1
            (detectChanges quietEnv Tree.walk Tree.snapshot).2 _ eq_refl _) _).
  - vm_compute. apply NoDup_cons. split.
    + intros Hin. apply list_elem_of_singleton in Hin. discriminate Hin.
    + apply NoDup_singleton.
  - vm_compute. reflexivity.
  - reflexivity.
Defined.

(** ** Segment names *)

Lemma compare_refl (s : string) : (s ?= s)%string = Eq.
Proof.
  induction s as [|c s IH]; [done|].
  rewrite compare_String. unfold Ascii.compare. by rewrite N.compare_refl.
Qed.

Lemma append_nil_r (s : string) : (s ++ "")%string = s.
Proof. induction s as [|c s IH]; [done|]. by rewrite append_String, IH. Qed.

Lemma length_append (a b : string) :
  String.length (a ++ b)%string = (String.length a + String.length b)%nat.
Proof. induction a as [|c a IH]; [done|]. rewrite append_String. simpl. by rewrite IH. Qed.

Lemma append_assoc (a b c : string) :
  ((a ++ b) ++ c)%string = (a ++ (b ++ c))%string.
Proof. induction a as [|x a IH]; [done|]. by rewrite !append_String, IH. Qed.

Lemma append_inj_r (a b s : string) : (a ++ s)%string = (b ++ s)%string -> a = b.
Proof.
  revert b. induction a as [|c a IH]; intros [|c' b] Heq.
  - done.
  - apply (f_equal String.length) in Heq.
    rewrite !length_append in Heq. simpl in Heq. lia.
  - apply (f_equal String.length) in Heq.
    rewrite !length_append in Heq. simpl in Heq. lia.
  - rewrite !append_String in Heq. injection Heq as -> Heq. f_equal. by apply IH.
Qed.

(** Equal digit strings of the same width are those of numbers equal
    modulo that power of ten. *)
Lemma decimal_inj w n m :
  decimal w n = decimal w m ->
  (n mod 10 ^ N.of_nat w = m mod 10 ^ N.of_nat w)%N.
Proof.
  intros Heq.
  pose proof (compare_decimal w n m "" "") as Hcmp.
  rewrite Heq, compare_refl in Hcmp.
  apply N.compare_eq. by destruct (_ ?= _)%N.
Qed.

Lemma decimal_inj_small w v n m :
  (n < 10 ^ N.of_nat w)%N -> (m < 10 ^ N.of_nat v)%N ->
  decimal w n = decimal v m -> n = m.
Proof.
  intros Hn Hm Heq.
  assert (w = v) as <-.
  { apply (f_equal String.length) in Heq. by rewrite !length_decimal in Heq. }
  apply decimal_inj in Heq. by rewrite !N.mod_small in Heq.
Qed.

Lemma ndigits_bound_max k n : (n < 10 ^ N.of_nat (Nat.max k (ndigits n)))%N.
Proof.
  eapply N.lt_le_trans; [apply ndigits_bound|].
  apply N.pow_le_mono_r; lia.
Qed.

Lemma Sprintf_d_inj a b : 0 <= a -> 0 <= b -> Sprintf_d a = Sprintf_d b -> a = b.
Proof.
  intros Ha Hb. rewrite !Sprintf_d_nonneg by done. intros Heq.
  apply decimal_inj_small in Heq; [lia|apply ndigits_bound..].
Qed.

Lemma Sprintf_03d_inj a b : 0 <= a -> 0 <= b -> Sprintf_03d a = Sprintf_03d b -> a = b.
Proof.
  intros Ha Hb. unfold Sprintf_03d.
  replace (a <? 0)%Z with false by (symmetry; apply Z.ltb_ge; lia).
  replace (b <? 0)%Z with false by (symmetry; apply Z.ltb_ge; lia).
  cbv zeta. intros Heq.
  apply decimal_inj_small in Heq; [lia|apply ndigits_bound_max..].
Qed.

Lemma isDigit_digitChar n : isDigit (digitChar (n mod 10)) = true.
Proof.
  pose proof (N.mod_lt n 10 ltac:(done)) as Hlt.
  set (d := (n mod 10)%N) in *. clearbody d.
  unfold isDigit, digitChar. rewrite N_ascii_embedding by lia.
  apply andb_true_intro. split; apply N.leb_le; lia.
Qed.

Lemma allDigits_decimal w n : allDigits (decimal w n) = true.
Proof.
  induction w as [|w IH]; [done|].
  rewrite decimal_S. cbn [allDigits]. by rewrite isDigit_digitChar, IH.
Qed.

(** Two digit strings followed by an underscore: the first underscore
    ends the digits. *)
Lemma digits_underscore (a b r1 r2 : string) :
  allDigits a = true -> allDigits b = true ->
  (a ++ String "_" r1)%string = (b ++ String "_" r2)%string -> a = b ∧ r1 = r2.
Proof.
  revert b. induction a as [|c a IH]; intros [|c' b] Ha Hb Heq.
  - by injection Heq as ->.
  - rewrite append_String in Heq. injection Heq as <- _. done.
  - rewrite append_String in Heq. injection Heq as -> _. done.
  - rewrite !append_String in Heq. injection Heq as -> Heq.
    cbn [allDigits] in Ha, Hb.
    apply andb_prop in Ha as [_ Ha]. apply andb_prop in Hb as [_ Hb].
    destruct (IH b Ha Hb Heq) as [-> ->]. done.
Qed.

(** X5.  Segments with different keys have different file names: for
    non-negative timestamps and sequence numbers, the path [writeChunk]
    writes determines the timestamp and the sequence number, so one call
    of [createBackup] never writes a file twice and calls at different
    seconds never write the same file. *)
Theorem segmentPath_inj (backupPath : string) (k1 k2 : Z * Z) :
  0 <= k1.1 -> 0 <= k1.2 -> 0 <= k2.1 -> 0 <= k2.2 ->
  segmentPath backupPath k1 = segmentPath backupPath k2 -> k1 = k2.
Proof.
  destruct k1 as [t1 n1], k2 as [t2 n2]. simpl. intros Ht1 Hn1 Ht2 Hn2.
  unfold segmentPath, chunkName. simpl fst. simpl snd. intros Heq.
  apply Join_inj in Heq. apply (append_inj_l "chunk_") in Heq.
  change ("_" ++ Sprintf_03d n1 ++ ".dat")%string
    with (String "_" (Sprintf_03d n1 ++ ".dat")%string) in Heq.
  change ("_" ++ Sprintf_03d n2 ++ ".dat")%string
    with (String "_" (Sprintf_03d n2 ++ ".dat")%string) in Heq.
  apply digits_underscore in Heq as [Ht Hn].
  - apply Sprintf_d_inj in Ht; [|done..]. apply append_inj_r in Hn.
    apply Sprintf_03d_inj in Hn; [|done..]. by subst.
  - rewrite Sprintf_d_nonneg by done. apply allDigits_decimal.
  - rewrite Sprintf_d_nonneg by done. apply allDigits_decimal.
Qed.

Lemma segmentPath_inj_witness :
  segmentPath "backup" (1704110400, 0) ≠ segmentPath "backup" (1704110400, 1).
Proof.
  intros Heq.
  apply (segmentPath_inj "backup" (1704110400, 0) (1704110400, 1)) in Heq;
    [discriminate Heq | simpl; lia ..].
Defined.

Lemma globMatch_literal (p pat s : string) :
  hasMeta p = false ->
  globMatch (p ++ pat)%string (p ++ s)%string = globMatch pat s.
Proof.
  induction p as [|c p IH]; intros Hp; [done|].
  cbn [hasMeta] in Hp. apply orb_false_elim in Hp as [Hc Hp].
  unfold isMeta in Hc. apply orb_false_elim in Hc as [Hc _].
  apply orb_false_elim in Hc as [Hc _]. apply orb_false_elim in Hc as [Hc _].
  rewrite !append_String. cbn [globMatch]. rewrite Hc, Ascii.eqb_refl. simpl.
  by apply IH.
Qed.

Lemma globMatch_star (pat s : string) :
  globMatch (String "*" pat) s =
  globMatch pat s ||
  match s with
  | EmptyString => false
  | String c s' => negb (Ascii.eqb c "/") && globMatch (String "*" pat) s'
  end.
Proof. by destruct s. Qed.

Lemma globMatch_star_skip (pat x s : string) :
  hasSlash x = false -> globMatch pat s = true ->
  globMatch (String "*" pat) (x ++ s)%string = true.
Proof.
  intros Hx Hs. induction x as [|c x IH].
  - change ("" ++ s)%string with s. rewrite globMatch_star, Hs. done.
  - cbn [hasSlash] in Hx. apply orb_false_elim in Hx as [Hc Hx].
    rewrite append_String, globMatch_star, Hc, IH by done.
    simpl. apply orb_true_r.
Qed.

Lemma hasSlash_append (a b : string) :
  hasSlash (a ++ b)%string = hasSlash a || hasSlash b.
Proof.
  induction a as [|c a IH]; [done|].
  rewrite append_String. cbn [hasSlash]. by rewrite IH, orb_assoc.
Qed.

Lemma hasSlash_decimal w n : hasSlash (decimal w n) = false.
Proof.
  induction w as [|w IH]; [done|].
  rewrite decimal_S. cbn [hasSlash]. rewrite IH, orb_false_r.
  pose proof (isDigit_digitChar (n / 10 ^ N.of_nat w)) as Hd.
  apply Ascii.eqb_neq. intros Heq. rewrite Heq in Hd. discriminate Hd.
Qed.

Lemma hasSlash_Sprintf_d z : hasSlash (Sprintf_d z) = false.
Proof.
  unfold Sprintf_d. destruct (z <? 0)%Z; cbv zeta.
  - rewrite hasSlash_append, hasSlash_decimal. done.
  - apply hasSlash_decimal.
Qed.

Lemma hasSlash_Sprintf_03d z : hasSlash (Sprintf_03d z) = false.
Proof.
  unfold Sprintf_03d. destruct (z <? 0)%Z; cbv zeta.
  - rewrite hasSlash_append, hasSlash_decimal. done.
  - apply hasSlash_decimal.
Qed.

Lemma restore_pattern_matches_segments_aux (backupPath : string) (k : Z * Z) :
  hasMeta backupPath = false ->
  globMatch (Join backupPath "chunk_*.dat") (segmentPath backupPath k) = true.
Proof.
  intros Hlit. unfold segmentPath, Join, chunkName.
  rewrite globMatch_literal by done.
  change ("/" ++ "chunk_*.dat")%string with ("/chunk_" ++ "*.dat")%string.
  change ("/" ++ "chunk_" ++ Sprintf_d k.1 ++ "_" ++ Sprintf_03d k.2 ++ ".dat")%string
    with ("/chunk_" ++ (Sprintf_d k.1 ++ "_" ++ Sprintf_03d k.2 ++ ".dat"))%string.
  rewrite globMatch_literal by done.
  replace (Sprintf_d k.1 ++ "_" ++ Sprintf_03d k.2 ++ ".dat")%string
    with ((Sprintf_d k.1 ++ "_" ++ Sprintf_03d k.2) ++ ".dat")%string.
  - apply globMatch_star_skip; [|done].
    rewrite !hasSlash_append, hasSlash_Sprintf_d, hasSlash_Sprintf_03d. done.
  - by rewrite !append_assoc.
Qed.

(** X6.  The pattern of [restore] accepts every name [writeChunk] gives a
    segment, whatever the timestamp and the sequence number (a backup
    path without pattern characters). *)
Theorem restore_pattern_matches_segments (backupPath : string) (k : Z * Z) :
  hasMeta backupPath = false ->
  globMatch (Join backupPath "chunk_*.dat") (segmentPath backupPath k) = true.
Proof. apply restore_pattern_matches_segments_aux. Qed.

Lemma restore_pattern_matches_segments_witness :
  globMatch (Join "backup" "chunk_*.dat") (segmentPath "backup" (1704110400, 12))
  = true.
Proof.
  apply (restore_pattern_matches_segments "backup" (1704110400, 12)). reflexivity.
Defined.

(** ** The order in which segments are read *)









(** ** What the Journal Writer leaves on disk *)



Lemma writeChunk_frame `{G : Gob} env backupPath timestamp num chunk disk q :
  q ≠ segmentPath backupPath (timestamp, num) ->
  (writeChunk env backupPath timestamp num chunk disk).1 !! q = disk !! q.
Proof.
  intros Hne. unfold writeChunk, segmentPath in *. simpl in *.
  destruct (create_fails env _); [done|]. simpl. by rewrite lookup_insert_ne.
Qed.














(** ** From a scan to a restored tree *)

Lemma journal_cons `{G : Gob} env disk f files :
  journal env disk (f :: files)
  = match readChunk env f disk with
    | Ok chunk => Entries chunk
    | Err _ => []
    end ++ journal env disk files.
Proof.
  unfold journal, decodedChunks. cbn [omap list_omap].
  change (list_omap _ _ ?g) with (omap g).
  by destruct (readChunk env f disk).
Qed.

Lemma journal_Permutation `{G : Gob} env disk files files' :
  files ≡ₚ files' -> journal env disk files ≡ₚ journal env disk files'.
Proof.
  induction 1 as [|f l l' _ IH|f g l|l1 l2 l3 _ IH1 _ IH2].
  - done.
  - rewrite !journal_cons. by rewrite IH.
  - rewrite !journal_cons, !app_assoc. f_equiv. apply Permutation_app_comm.
  - by etrans.
Qed.







(** ** Replaying in another order *)

Lemma applyEntry_comm st a b :
  Path a ≠ Path b ->
  applyEntry (applyEntry st a) b = applyEntry (applyEntry st b) a.
Proof.
  intros Hne. assert (Hne' : Path b ≠ Path a) by congruence.
  unfold applyEntry.
  destruct (Deleted a), (Deleted b); simpl; f_equal;
    first [ apply delete_delete
          | by apply insert_insert_ne
          | by apply delete_insert_ne
          | symmetry; by apply delete_insert_ne ].
Qed.

Lemma fold_applyEntry_Permutation (l l' : list FileEntry) st :
  l ≡ₚ l' -> NoDup (Path <$> l) ->
  fold_left applyEntry l st = fold_left applyEntry l' st.
Proof.
  intros Hperm. revert st.
  induction Hperm as [|x l l' _ IH|x y l|l1 l2 l3 Hp1 IH1 _ IH2]; intros st Hnd.
  - done.
  - rewrite fmap_cons in Hnd. apply NoDup_cons in Hnd as [_ Hnd]. simpl. by apply IH.
  - rewrite !fmap_cons in Hnd. apply NoDup_cons in Hnd as [Hy _].
    apply not_elem_of_cons in Hy as [Hyx _]. simpl. by rewrite applyEntry_comm.
  - rewrite IH1 by done. apply IH2. by rewrite <- Hp1.
Qed.

(** X11.  Segments whose records have pairwise distinct paths, as those
    of one run of [createBackup] on the changes of one scan have, can be
    replayed in any order: the state reached is the same.  (So the order
    of the names of one run's segments does not matter to [restore].) *)
Theorem replay_order_irrelevant_for_distinct_paths `{G : Gob} (env : Env)
    (disk : gmap string File) (files files' : list string) :
  files ≡ₚ files' ->
  NoDup (Path <$> journal env disk files) ->
  replay env disk files' = replay env disk files.
Proof.
  intros Hperm Hnd. rewrite !replay_journal. unfold foldRecords. symmetry.
  apply fold_applyEntry_Permutation; [|done]. by apply journal_Permutation.
Qed.

Lemma replay_order_irrelevant_for_distinct_paths_witness :
  @replay wireGob quietEnv manySegments
    ["backup/chunk_1_1000.dat"; "backup/chunk_1_999.dat"]%string
  = @replay wireGob quietEnv manySegments
      ["backup/chunk_1_999.dat"; "backup/chunk_1_1000.dat"]%string.
Proof.
  apply (@replay_order_irrelevant_for_distinct_paths wireGob quietEnv manySegments).
  - apply Permutation_swap.
  - vm_compute. apply NoDup_cons. split.
    + intros Hin. apply list_elem_of_singleton in Hin. discriminate Hin.
    + apply NoDup_singleton.
Defined.

(** ** What restore leaves at the target *)

Lemma materialize_run env rp entries disk disk' :
  materialize env rp entries disk = (disk', Ok tt) ->
  Forall (fun e => mkdirAll_fails env (Dir (Join rp (Path e))) = false
                   ∧ writeFile_fails env (Join rp (Path e)) = false) entries.
Proof.
  revert disk. induction entries as [|e entries IH]; intros disk Hrun; [constructor|].
  rewrite materialize_cons in Hrun. cbv zeta in Hrun.
  destruct (mkdirAll_fails env _) eqn:Hm; [done|].
  destruct (writeFile_fails env _) eqn:Hw; [done|].
  constructor; [done|]. by eapply IH.
Qed.




(** X13.  A journal in which no path is live (it holds only tombstones,
    or every record was later tombstoned) restores nothing: when the
    target directory can be created and the listing finds a segment,
    [restore] returns no error and leaves the disk as it was. *)
Theorem restore_nothing_live `{G : Gob} (env : Env) (backupPath restorePath : string)
    (disk : gmap string File) (files : list string) :
  mkdirAll_fails env restorePath = false ->
  Glob env (Join backupPath "chunk_*.dat") disk = Ok files ->
  files ≠ [] ->
  (forall e, e ∈ journal env disk (sort_Strings files) ->
     exists e', lastRecord (Path e) (journal env disk (sort_Strings files)) = Some e'
                ∧ Deleted e' = true) ->
  restore env backupPath restorePath disk = (disk, Ok tt).
Proof.
  intros Hmkdir Hglob Hfiles Hdead.
  rewrite restore_unfold, Hmkdir, Hglob.
  destruct files as [|f files]; [done|]. cbn [length Nat.eqb].
  assert (Hempty : fileData (replay env disk (segmentFiles env backupPath disk)) = ∅).
  { unfold segmentFiles. rewrite Hglob. apply map_eq. intros p.
    rewrite lookup_empty.
    destruct (replay_lookup env disk (sort_Strings (f :: files)) p) as [-> _].
    destruct (lastRecord p _) as [e|] eqn:Hlast; [|done]. simpl.
    assert (He : e ∈ journal env disk (sort_Strings (f :: files)) ∧ Path e = p).
    { unfold lastRecord in Hlast. apply last_Some_elem_of in Hlast.
      apply list_elem_of_filter in Hlast as [? ?]. done. }
    destruct He as [He <-]. destruct (Hdead e He) as (e' & He' & Hdel).
    rewrite Hlast in He'. injection He' as <-. by rewrite Hdel. }
  rewrite Hempty, map_to_list_empty. done.
Qed.

Lemma restore_nothing_live_witness :
  @restore wireGob quietEnv "backup" "target" onlyDeleted = (onlyDeleted, Ok tt).
Proof.
  apply (@restore_nothing_live wireGob quietEnv "backup" "target" onlyDeleted
           ["backup/chunk_1000_000.dat"%string]).
  - reflexivity.
  - vm_compute. reflexivity.
  - discriminate.
  - intros e He. vm_compute in He.
    apply elem_of_cons in He as [->|He].
    + exists (tombstone "deleted1.txt"). split; vm_compute; reflexivity.
    + apply list_elem_of_singleton in He as ->.
      exists (tombstone "deleted2.txt"). split; vm_compute; reflexivity.
Defined.

(** ** Restoring twice *)





(** ** Watching a tree and restoring it *)


















(** ** What the watcher never writes *)

Lemma backupLoop_frame `{G : Gob} env backupPath timestamp entries num cur size
    (disk : gmap string File) q :
  (forall n, q ≠ segmentPath backupPath (timestamp, n)) ->
  (backupLoop env backupPath timestamp entries num cur size disk).1 !! q = disk !! q.
Proof.
  intros Hq. revert num cur size disk.
  induction entries as [|entry rest IH]; intros num cur size disk; [done|].
  rewrite backupLoop_cons. cbv zeta.
  destruct (_ && _); [|apply IH].
  unfold mbind, M_bind, bind.
  pose proof (writeChunk_frame env backupPath timestamp num cur disk q (Hq num)) as Hw.
  destruct (writeChunk env backupPath timestamp num cur disk) as [disk1 [[]|e]];
    simpl in Hw; [|done].
  by rewrite IH.
Qed.

Lemma createBackup_frame `{G : Gob} env backupPath entries (disk : gmap string File) q :
  (forall n, q ≠ segmentPath backupPath (Unix (now env), n)) ->
  (createBackup env backupPath entries disk).1 !! q = disk !! q.
Proof.
  intros Hq. unfold createBackup. cbv zeta. unfold mbind, M_bind, bind.
  pose proof (backupLoop_frame env backupPath (Unix (now env)) entries 0
                (mkChunk []) 0 disk q Hq) as Hloop.
  destruct (backupLoop env backupPath (Unix (now env)) entries 0 (mkChunk []) 0 disk)
    as [disk1 [[num cur]|e]]; simpl in Hloop; [|done].
  destruct (0 <? length (Entries cur))%nat; [|done].
  by rewrite writeChunk_frame.
Qed.

Lemma watchLoop_frame `{G : Gob} backupPath passes snapshot (disk : gmap string File) q :
  (forall k, q ≠ segmentPath backupPath k) ->
  (watchLoop backupPath passes snapshot disk).1 !! q = disk !! q.
Proof.
  intros Hq. revert snapshot disk.
  induction passes as [|[env walk] rest IH]; intros snapshot disk; [done|].
  cbn [watchLoop]. unfold mbind, M_bind, bind.
  rewrite watchPass_unfold. rewrite IH.
  destruct (0 <? length _)%nat; [|done].
  apply createBackup_frame. intros n. apply Hq.
Qed.

(** X16.  The watcher writes nothing but segment files: whatever the
    passes find and whatever fails, a path that does not match
    [<backupPath>/chunk_*.dat] holds after [watch] what it held before
    (in particular the watched tree is never modified). *)
Theorem watch_writes_only_segments `{G : Gob} (env : Env) (backupPath : string)
    (passes : list (Env * list WalkEvent)) (disk : gmap string File) (q : string) :
  hasMeta backupPath = false ->
  globMatch (Join backupPath "chunk_*.dat") q = false ->
  (watch env backupPath passes disk).1 !! q = disk !! q.
Proof.
  intros Hlit Hq. unfold watch, mbind, M_bind, bind, MkdirAll.
  destruct (mkdirAll_fails env backupPath); [done|].
  apply watchLoop_frame. intros k Heq.
  rewrite Heq, restore_pattern_matches_segments_aux in Hq by done. discriminate Hq.
Qed.

Lemma watch_writes_only_segments_witness :
  (@watch wireGob quietEnv "backup"
     [(quietEnv, Tree.walk); (laterEnv, Edited.walk)] treeDisk).1 !! "tree/a.txt"
  = Some {| fbytes := list_byte_of_string "x"; fperm := 420; fmtime := 5 |}.
Proof.
  rewrite (@watch_writes_only_segments wireGob quietEnv "backup"
             [(quietEnv, Tree.walk); (laterEnv, Edited.walk)] treeDisk "tree/a.txt").
  - vm_compute. reflexivity.
  - reflexivity.
  - vm_compute. reflexivity.
Defined.

(** ** Two backups within one second *)


